(** * A shallow embedding of [ss_py/scheme.py]

    The interpreter is modelled the way it is written: expressions are the
    Python values [parse] builds (floats, booleans, strings, nested lists),
    environments are mutable objects living in a store and referred to by
    location, and [evaluate] threads that store and may raise one of the
    host exceptions.  Recursion that Python bounds only by its call stack is
    bounded here by a fuel argument. *)

From Stdlib Require Import Ascii.
From stdpp Require Import gmap strings list fin_maps.
From Corelib Require Import SpecFloat.

Local Open Scope Z_scope.

(** ** Host numbers

    A Python [float] is an IEEE 754 binary64 number.  [spec_float] with
    precision 53 and maximal exponent 1024 is that format, NaN payloads
    apart. *)

Module PyFloat.

Definition prec : Z := 53.
Definition emax : Z := 1024.

Definition float : Type := spec_float.

Definition add : float → float → float := SFadd prec emax.
Definition sub : float → float → float := SFsub prec emax.
Definition mul : float → float → float := SFmul prec emax.
Definition div : float → float → float := SFdiv prec emax.
Definition opp : float → float := SFopp.
Definition compare : float → float → option comparison := SFcompare.

(** The float nearest to an integer (ties to even); an infinity when the
    integer is out of range. *)
Definition of_Z (z : Z) : float := binary_normalize prec emax z 0 false.

Definition is_zero (x : float) : bool :=
  match x with S754_zero _ => true | _ => false end.

Definition is_infinity (x : float) : bool :=
  match x with S754_infinity _ => true | _ => false end.

(** The correctly rounded quotient of two integers, [b] not zero. *)
Definition div_Z (a b : Z) : float :=
  let neg := xorb (a <? 0) (b <? 0) in
  match a with
  | Z0 => S754_zero neg
  | _ =>
      let '(q, e, l) := SFdiv_core_binary prec emax (Z.abs a) 0 (Z.abs b) 0 in
      binary_round_aux prec emax neg q e l
  end.

(** Exact comparison of an integer with a float. *)
Definition compare_Z (z : Z) (x : float) : option comparison :=
  match x with
  | S754_nan => None
  | S754_infinity s => Some (if s then Gt else Lt)
  | S754_zero _ => Some (z ?= 0)
  | S754_finite s m e =>
      let sm := if s then Z.neg m else Z.pos m in
      Some (if 0 <=? e then z ?= sm * 2 ^ e else z * 2 ^ (- e) ?= sm)
  end.

#[global] Instance float_eq_dec : EqDecision float.
Proof. solve_decision. Defined.

End PyFloat.

Abbreviation float := PyFloat.float.

(** ** Exceptions the interpreter can raise *)

Inductive exn : Set :=
  | SyntaxError
  | NameError
  | TypeError
  | IndexError
  | ZeroDivisionError
  | OverflowError.

#[global] Instance exn_eq_dec : EqDecision exn.
Proof. solve_decision. Defined.

(** ** Expressions: what [parse] returns

    [Expression = Union[float, bool, SchemeSymbol, List['Expression']]]. *)

#[warnings="-register-all"]
Inductive expr : Type :=
  | ENum (x : float)
  | EBool (b : bool)
  | ESym (s : string)
  | EList (l : list expr).

(** ** Values

    Environments are referred to by their location in the store.  A Python
    function object compares by identity, so a closure carries the identity
    it was given when [_lambda] created it; the ten builtins are ten
    distinct objects. *)

Abbreviation loc := nat.

Inductive builtin : Set :=
  | BAdd | BSub | BMul | BDiv | BEq | BLe | BGe | BLt | BGt | BNot.

#[global] Instance builtin_eq_dec : EqDecision builtin.
Proof. solve_decision. Defined.

#[warnings="-register-all"]
Inductive value : Type :=
  | VFloat (x : float)
  | VBool (b : bool)
  | VInt (z : Z)
  | VNone
  | VBuiltin (b : builtin)
  | VClosure (id : nat) (params : list string) (body : expr) (env : loc).

(** ** Host operators on values *)

Module Py.

(** Either an exception or a result. *)
Definition res (A : Type) : Type := exn + A.

Definition bind {A B} (r : res A) (k : A → res B) : res B :=
  match r with inl e => inl e | inr a => k a end.

(** The numeric reading of a value: [bool] is a subclass of [int]. *)
Inductive num : Type :=
  | NInt (z : Z)
  | NFloat (x : float).

Definition as_num (v : value) : option num :=
  match v with
  | VFloat x => Some (NFloat x)
  | VBool b => Some (NInt (if b then 1 else 0))
  | VInt z => Some (NInt z)
  | _ => None
  end.

(** [float(z)] for an integer: OverflowError when out of range. *)
Definition to_float (n : num) : res float :=
  match n with
  | NFloat x => inr x
  | NInt z =>
      let x := PyFloat.of_Z z in
      if PyFloat.is_infinity x then inl OverflowError else inr x
  end.

(** [x + y], [x - y], [x * y]: exact on integers, binary64 as soon as one
    operand is a float, TypeError on anything else. *)
Definition arith (fz : Z → Z → Z) (ff : float → float → float)
    (v w : value) : res value :=
  match as_num v, as_num w with
  | Some (NInt a), Some (NInt b) => inr (VInt (fz a b))
  | Some a, Some b =>
      bind (to_float a) (λ x, bind (to_float b) (λ y, inr (VFloat (ff x y))))
  | _, _ => inl TypeError
  end.

Definition add : value → value → res value := arith Z.add PyFloat.add.
Definition sub : value → value → res value := arith Z.sub PyFloat.sub.
Definition mul : value → value → res value := arith Z.mul PyFloat.mul.

(** [x / y]: true division, ZeroDivisionError on a zero divisor. *)
Definition truediv (v w : value) : res value :=
  match as_num v, as_num w with
  | Some (NInt a), Some (NInt b) =>
      if b =? 0 then inl ZeroDivisionError
      else
        let q := PyFloat.div_Z a b in
        if PyFloat.is_infinity q then inl OverflowError else inr (VFloat q)
  | Some a, Some b =>
      bind (to_float a) (λ x, bind (to_float b) (λ y,
        if PyFloat.is_zero y then inl ZeroDivisionError
        else inr (VFloat (PyFloat.div x y))))
  | _, _ => inl TypeError
  end.

(** [-x] *)
Definition neg (v : value) : res value :=
  match as_num v with
  | Some (NInt a) => inr (VInt (- a))
  | Some (NFloat x) => inr (VFloat (PyFloat.opp x))
  | None => inl TypeError
  end.

(** Numbers compare by value, exactly, across [int] and [float]; a NaN
    compares with nothing. *)
Definition num_compare (a b : num) : option comparison :=
  match a, b with
  | NInt x, NInt y => Some (x ?= y)
  | NFloat x, NFloat y => PyFloat.compare x y
  | NInt x, NFloat y => PyFloat.compare_Z x y
  | NFloat x, NInt y => CompOpp <$> PyFloat.compare_Z y x
  end.

(** [x < y] and the like: TypeError unless both are numbers. *)
Definition order (test : comparison → bool) (v w : value) : res value :=
  match as_num v, as_num w with
  | Some a, Some b =>
      inr (VBool (from_option test false (num_compare a b)))
  | _, _ => inl TypeError
  end.

Definition is_Lt (c : comparison) : bool := match c with Lt => true | _ => false end.
Definition is_Gt (c : comparison) : bool := match c with Gt => true | _ => false end.
Definition is_Eq (c : comparison) : bool := match c with Eq => true | _ => false end.

Definition lt : value → value → res value := order is_Lt.
Definition gt : value → value → res value := order is_Gt.
Definition le : value → value → res value := order (λ c, negb (is_Gt c)).
Definition ge : value → value → res value := order (λ c, negb (is_Lt c)).

(** [x == y] never raises: numbers by value, [None] with itself, function
    objects by identity. *)
Definition eq (v w : value) : bool :=
  match as_num v, as_num w with
  | Some a, Some b => from_option is_Eq false (num_compare a b)
  | _, _ =>
      match v, w with
      | VNone, VNone => true
      | VBuiltin b, VBuiltin b' => bool_decide (b = b')
      | VClosure i _ _ _, VClosure j _ _ _ => bool_decide (i = j)
      | _, _ => false
      end
  end.

(** Host truthiness, as [not x] and [if x] see it. *)
Definition truthy (v : value) : bool :=
  match v with
  | VFloat x => negb (PyFloat.is_zero x)
  | VBool b => b
  | VInt z => negb (z =? 0)
  | VNone => false
  | VBuiltin _ | VClosure _ _ _ _ => true
  end.

(** [sum(args)]: the left fold of [+] from the integer [0].  (On three or
    more floats a recent CPython adds with a compensation term, which can
    change the last bit of the result; nothing below depends on it.) *)
Definition sum (args : list value) : res value :=
  foldl (λ acc v, bind acc (λ s, add s v)) (inr (VInt 0)) args.

(** [callable(x)] *)
Definition callable (v : value) : bool :=
  match v with
  | VBuiltin _ | VClosure _ _ _ _ => true
  | _ => false
  end.

(** [x is False] *)
Definition is_False (v : value) : bool :=
  match v with VBool false => true | _ => false end.

End Py.

(** ** Environments and the store

    [class Env]: a dictionary of bindings and an optional parent.  The
    objects live in a store; an environment is known by its location, so
    that two holders of one location see each other's writes. *)

Module Env.

Record t : Type := Build { bindings : gmap string value; parent : option loc }.

(** [find]: the environment of the chain, innermost first, whose own
    dictionary has [var].  Each step follows a parent link, and a link
    always leads to an older object, so the number of objects bounds the
    walk; [None] is the answer on a store where it does not. *)
Fixpoint find_from (n : nat) (h : list t) (e : loc) (var : string)
    : option (Py.res loc) :=
  match n with
  | O => None
  | S n =>
      match h !! e with
      | None => None
      | Some E =>
          match bindings E !! var with
          | Some _ => Some (inr e)
          | None =>
              match parent E with
              | Some p => find_from n h p var
              | None => Some (inl NameError)
              end
          end
      end
  end.

Definition find (h : list t) (e : loc) (var : string) : option (Py.res loc) :=
  find_from (length h) h e var.

(** [__setitem__]: [self.bindings[key] = value] *)
Definition setitem (h : list t) (e : loc) (key : string) (v : value) : list t :=
  alter (λ E, Build (<[key := v]> (bindings E)) (parent E)) e h.

(** [__getitem__]: [self.find(key)[key]] *)
Definition getitem (h : list t) (e : loc) (key : string) : option (Py.res value) :=
  match find h e key with
  | None => None
  | Some (inl x) => Some (inl x)
  | Some (inr f) => inr <$> (h !! f ≫= λ E, bindings E !! key)
  end.

(** [__contains__] *)
Definition contains (h : list t) (e : loc) (key : string) : option bool :=
  match find h e key with
  | None => None
  | Some (inl _) => Some false
  | Some (inr _) => Some true
  end.

End Env.

Record store : Type := Store { envs : list Env.t; next_id : nat }.

(** ** Outcomes of a computation over the store *)

Inductive outcome (A : Type) : Type :=
  | Return (a : A) (σ : store)
  | Raise (x : exn) (σ : store)
  | OutOfFuel
  | Dangling.

Arguments Return {A} a σ.
Arguments Raise {A} x σ.
Arguments OutOfFuel {A}.
Arguments Dangling {A}.

Definition M (A : Type) : Type := store → outcome A.

#[global] Instance M_ret : MRet M := λ A a σ, Return a σ.

#[global] Instance M_bind : MBind M := λ A B k m σ,
  match m σ with
  | Return a σ' => k a σ'
  | Raise x σ' => Raise x σ'
  | OutOfFuel => OutOfFuel
  | Dangling => Dangling
  end.

Definition raise {A} (x : exn) : M A := λ σ, Raise x σ.

(** A host operator that may raise. *)
Definition lift {A} (r : Py.res A) : M A :=
  match r with inl x => raise x | inr a => mret a end.

(** [env[key]] *)
Definition env_get (env : loc) (key : string) : M value :=
  λ σ, match Env.getitem (envs σ) env key with
       | None => Dangling
       | Some r => lift r σ
       end.

(** [env[key] = v] *)
Definition env_set (env : loc) (key : string) (v : value) : M unit :=
  λ σ, match envs σ !! env with
       | None => Dangling
       | Some _ => Return () (Store (Env.setitem (envs σ) env key v) (next_id σ))
       end.

(** [Env(bindings, parent)]: a new object, at the next free location. *)
Definition env_new (b : gmap string value) (p : loc) : M loc :=
  λ σ, Return (length (envs σ)) (Store (envs σ ++ [Env.Build b (Some p)]) (next_id σ)).

(** The identity of a new function object. *)
Definition fresh_id : M nat :=
  λ σ, Return (next_id σ) (Store (envs σ) (S (next_id σ))).

(** ** Builtin procedures: the lambdas of [create_global_env]

    Each takes the tuple of evaluated arguments.  A Python call whose
    argument count does not fit the parameter list raises TypeError. *)

Definition fixed1 (f : value → Py.res value) (args : list value) : Py.res value :=
  match args with
  | [x] => f x
  | _ => inl TypeError
  end.

Definition fixed2 (f : value → value → Py.res value) (args : list value)
    : Py.res value :=
  match args with
  | [x; y] => f x y
  | _ => inl TypeError
  end.

(** ['+': lambda *args: sum(args)] *)
Definition builtin_add (args : list value) : Py.res value := Py.sum args.

(** ['-': lambda x, *ys: x - sum(ys) if ys else -x] *)
Definition builtin_sub (args : list value) : Py.res value :=
  match args with
  | [] => inl TypeError
  | x :: ys =>
      match ys with
      | [] => Py.neg x
      | _ => Py.bind (Py.sum ys) (λ s, Py.sub x s)
      end
  end.

(** ['*': lambda *args: (args[0] if len(args) == 1 else args[0] * args[1])] *)
Definition builtin_mul (args : list value) : Py.res value :=
  if bool_decide (length args = 1%nat) then
    match args !! 0%nat with Some x => inr x | None => inl IndexError end
  else
    match args !! 0%nat with
    | None => inl IndexError
    | Some x =>
        match args !! 1%nat with
        | None => inl IndexError
        | Some y => Py.mul x y
        end
    end.

Definition call_builtin (b : builtin) : list value → Py.res value :=
  match b with
  | BAdd => builtin_add
  | BSub => builtin_sub
  | BMul => builtin_mul
  | BDiv => fixed2 Py.truediv
  | BEq => fixed2 (λ x y, inr (VBool (Py.eq x y)))
  | BLe => fixed2 Py.le
  | BGe => fixed2 Py.ge
  | BLt => fixed2 Py.lt
  | BGt => fixed2 Py.gt
  | BNot => fixed1 (λ x, inr (VBool (negb (Py.truthy x))))
  end.

(** [create_global_env] *)
Definition global_bindings : gmap string value :=
  list_to_map
    [ ("+", VBuiltin BAdd); ("-", VBuiltin BSub); ("*", VBuiltin BMul);
      ("/", VBuiltin BDiv); ("=", VBuiltin BEq); ("<=", VBuiltin BLe);
      (">=", VBuiltin BGe); ("<", VBuiltin BLt); (">", VBuiltin BGt);
      ("not", VBuiltin BNot) ].

Definition create_global_env : store :=
  Store [Env.Build global_bindings None] 0.

(** The location of the global environment in that store. *)
Definition global_env : loc := 0%nat.

(** ** Special forms

    The handlers call back into [evaluate]; they take it as the argument
    [ev], which [evaluate] instantiates with itself at the remaining fuel. *)

Definition evaluator : Type := expr → loc → M value.
Definition handler : Type := evaluator → list expr → loc → M value.

Definition _define : handler := λ ev expr env,
  match expr with
  | [_; ESym var; value] =>
      v ← ev value env;
      _ ← env_set env var v;
      mret VNone
  | _ => raise SyntaxError
  end.

Definition _if : handler := λ ev expr env,
  match expr with
  | [_; test; consequent; alternative] =>
      t ← ev test env;
      if Py.is_False t then ev alternative env else ev consequent env
  | _ => raise SyntaxError
  end.

(** [all(isinstance(p, str) for p in params)], with the names when so. *)
Fixpoint symbols (params : list expr) : option (list string) :=
  match params with
  | [] => Some []
  | ESym p :: rest => (p ::.) <$> symbols rest
  | _ :: _ => None
  end.

Definition _lambda : handler := λ ev expr env,
  match expr with
  | [_; EList params; body] =>
      match symbols params with
      | Some ps =>
          id ← fresh_id;
          mret (VClosure id ps body env)
      | None => raise SyntaxError
      end
  | _ => raise SyntaxError
  end.

(** The loop of [_and] over [expr[1:]], [val] being the last value. *)
Fixpoint and_loop (ev : evaluator) (args : list expr) (env : loc) (val : value)
    : M value :=
  match args with
  | [] => mret val
  | arg :: rest =>
      v ← ev arg env;
      if Py.is_False v then mret (VBool false) else and_loop ev rest env v
  end.

Definition _and : handler := λ ev expr env,
  if bool_decide (length expr = 1%nat) then mret (VBool true)
  else and_loop ev (drop 1 expr) env (VBool true).

(** The loop of [_or] over [expr[1:]]. *)
Fixpoint or_loop (ev : evaluator) (args : list expr) (env : loc) (val : value)
    : M value :=
  match args with
  | [] => mret val
  | arg :: rest =>
      v ← ev arg env;
      if Py.is_False v then or_loop ev rest env v else mret v
  end.

Definition _or : handler := λ ev expr env,
  if bool_decide (length expr = 1%nat) then mret (VBool false)
  else or_loop ev (drop 1 expr) env (VBool false).

Definition special_forms : gmap string handler :=
  list_to_map [ ("if", _if); ("lambda", _lambda); ("and", _and); ("or", _or) ].

(** ** Procedure application *)

(** [dict(zip(params, args))]: pairs up to the shorter of the two, a later
    pair replacing an earlier one with the same name. *)
Definition dict_zip (params : list string) (args : list value) : gmap string value :=
  foldl (λ d kv, <[kv.1 := kv.2]> d) ∅ (zip params args).

(** [[evaluate(arg, env) for arg in args]] *)
Fixpoint eval_args (ev : evaluator) (args : list expr) (env : loc) : M (list value) :=
  match args with
  | [] => mret []
  | arg :: rest =>
      v ← ev arg env;
      vs ← eval_args ev rest env;
      mret (v :: vs)
  end.

(** [proc( *args)]: a builtin runs on the host; a closure is the function
    [lambda *args: evaluate(body, Env(dict(zip(params, args)), env))]. *)
Definition call (ev : evaluator) (proc : value) (args : list value) : M value :=
  match proc with
  | VBuiltin b => lift (call_builtin b args)
  | VClosure _ params body cenv =>
      new ← env_new (dict_zip params args) cenv;
      ev body new
  | _ => raise TypeError
  end.

(** ** The evaluator *)

(** [isinstance(form, str) and form == name] *)
Definition is_symbol (form : expr) (name : string) : bool :=
  match form with
  | ESym s => bool_decide (s = name)
  | _ => false
  end.

(** [special_forms[form]] when [isinstance(form, str) and form in special_forms] *)
Definition special_form (form : expr) : option handler :=
  match form with
  | ESym s => special_forms !! s
  | _ => None
  end.

Fixpoint evaluate (fuel : nat) (expr : expr) (env : loc) : M value :=
  match fuel with
  | O => λ _, OutOfFuel
  | S fuel =>
      match expr with
      | ENum x => mret (VFloat x)
      | EBool b => mret (VBool b)
      | ESym s => env_get env s
      | EList [] => raise SyntaxError
      | EList ((form :: rest) as l) =>
          if is_symbol form "define" then _define (evaluate fuel) l env
          else
            match special_form form with
            | Some h => h (evaluate fuel) l env
            | None =>
                proc ← evaluate fuel form env;
                if Py.callable proc then
                  args ← eval_args (evaluate fuel) rest env;
                  call (evaluate fuel) proc args
                else raise TypeError
            end
      end
  end.

(** The part of an outcome a caller observes: the value returned or the
    exception raised. *)
Definition answer {A} (o : outcome A) : option (Py.res A) :=
  match o with
  | Return a _ => Some (inr a)
  | Raise x _ => Some (inl x)
  | OutOfFuel | Dangling => None
  end.

(** ** The parser

    [parse] pops tokens off the front of a list it shares with its caller;
    here it returns the expression together with the tokens left.  The
    host's [float(token)] is a parameter: [None] stands for its ValueError. *)

Section Parser.

Variable py_float : string → option float.

Definition atom (token : string) : expr :=
  match py_float token with
  | Some x => ENum x
  | None =>
      if bool_decide (token = "#t") then EBool true
      else if bool_decide (token = "#f") then EBool false
      else ESym token
  end.

Definition parser : Type := list string → option (Py.res (expr * list string)).

(** [while tokens and tokens[0] != ')': L.append(parse(tokens))], at most
    [k] rounds. *)
Fixpoint parse_loop (parse : parser) (k : nat) (tokens : list string)
    (L : list expr) : option (Py.res (list expr * list string)) :=
  match k with
  | O => None
  | S k =>
      match tokens with
      | [] => Some (inr (L, tokens))
      | t :: _ =>
          if bool_decide (t = ")") then Some (inr (L, tokens))
          else
            match parse tokens with
            | None => None
            | Some (inl x) => Some (inl x)
            | Some (inr (e, tokens')) => parse_loop parse k tokens' (L ++ [e])
            end
      end
  end.

Fixpoint parse_fuel (n : nat) (tokens : list string)
    : option (Py.res (expr * list string)) :=
  match n with
  | O => None
  | S n =>
      match tokens with
      | [] => Some (inl SyntaxError)
      | token :: tokens =>
          if bool_decide (token = "(") then
            match parse_loop (parse_fuel n) n tokens [] with
            | None => None
            | Some (inl x) => Some (inl x)
            | Some (inr (L, tokens)) =>
                match tokens with
                | [] => Some (inl SyntaxError)
                | t :: tokens =>
                    if bool_decide (t = ")") then Some (inr (EList L, tokens))
                    else Some (inl SyntaxError)
                end
            end
          else if bool_decide (token = ")") then Some (inl SyntaxError)
          else Some (inr (atom token, tokens))
      end
  end.

(** Every call pops a token, so one more unit of fuel than there are tokens
    is enough ([parse_total] below). *)
Definition parse (tokens : list string) : option (Py.res (expr * list string)) :=
  parse_fuel (S (length tokens)) tokens.

(** The token sequences that spell one expression: an atom lexeme, or a
    parenthesis group around the spellings of its elements. *)
Inductive spells : list string → expr → Prop :=
  | spells_atom t :
      t ≠ "(" → t ≠ ")" → spells [t] (atom t)
  | spells_group body es :
      spells_seq body es → spells ("(" :: body ++ [")"]) (EList es)
with spells_seq : list string → list expr → Prop :=
  | spells_nil : spells_seq [] []
  | spells_cons ts e body es :
      spells ts e → spells_seq body es → spells_seq (ts ++ body) (e :: es).

End Parser.

Scheme spells_mut := Minimality for spells Sort Prop
  with spells_seq_mut := Minimality for spells_seq Sort Prop.

(** The host's [float] on the tokens the examples below use: a string of
    ASCII digits reads as that integer, rounded to the nearest float, and a
    token without a digit that does not spell [inf], [infinity] or [nan] is
    a ValueError.  (The other spellings [float] accepts, with a sign, a
    fraction, an exponent or an underscore, do not occur in them.) *)
Definition digit (c : Ascii.ascii) : option Z :=
  let n := Z.of_N (Ascii.N_of_ascii c) in
  if bool_decide (48 ≤ n ≤ 57) then Some (n - 48) else None.

Fixpoint digits (s : string) (acc : Z) : option Z :=
  match s with
  | EmptyString => Some acc
  | String c s => d ← digit c; digits s (10 * acc + d)
  end.

Definition float_of_digits (token : string) : option float :=
  match token with
  | EmptyString => None
  | _ => PyFloat.of_Z <$> digits token 0
  end.

(** ** The drivers

    [file_mode] and [repl_mode] evaluate each top-level form in the global
    environment; they report an exception of the four kinds they catch and
    go on with the next form, any other exception ends the run.  [run]
    gives what each form answered. *)

Definition caught (x : exn) : bool :=
  match x with
  | SyntaxError | NameError | TypeError | IndexError => true
  | ZeroDivisionError | OverflowError => false
  end.

Fixpoint run (fuel : nat) (forms : list expr) (σ : store)
    : list (option (Py.res value)) :=
  match forms with
  | [] => []
  | form :: rest =>
      let o := evaluate fuel form global_env σ in
      answer o ::
        match o with
        | Return _ σ' => run fuel rest σ'
        | Raise x σ' => if caught x then run fuel rest σ' else []
        | OutOfFuel | Dangling => []
        end
  end.

(** Expressions as [parse] builds them from numerals, names and groups. *)
Definition num (z : Z) : expr := ENum (PyFloat.of_Z z).

(** * The tokenizer

    A string is the sequence of its characters; a character of [ascii] is
    the code point of that number, so the texts modelled are the ones whose
    code points are below 256. *)

(** [str.isspace] on one character: the whitespace among those code
    points. *)
Definition isspace (c : Ascii.ascii) : bool :=
  let n := Ascii.N_of_ascii c in
  bool_decide (9 ≤ n ≤ 13 ∨ 28 ≤ n ≤ 32 ∨ n = 133 ∨ n = 160)%N.

(** The class [[()]] of the pattern. *)
Definition is_paren (c : Ascii.ascii) : bool :=
  Ascii.eqb c "("%char || Ascii.eqb c ")"%char.

(** [re.sub(r'([()])', r' \1 ', s)]: a space on both sides of every
    parenthesis. *)
Fixpoint sub_parens (s : string) : string :=
  match s with
  | EmptyString => EmptyString
  | String c s =>
      if is_paren c then
        String " "%char (String c (String " "%char (sub_parens s)))
      else String c (sub_parens s)
  end.

(** The word collected so far, when there is one. *)
Definition flush (word : string) : list string :=
  match word with
  | EmptyString => []
  | _ => [word]
  end.

(** [str.split()]: the maximal runs of characters that are not whitespace,
    [word] being the run under way. *)
Fixpoint split_from (word : string) (s : string) : list string :=
  match s with
  | EmptyString => flush word
  | String c s =>
      if isspace c then flush word ++ split_from EmptyString s
      else split_from (word +:+ String c EmptyString) s
  end.

Definition split (s : string) : list string := split_from EmptyString s.

Definition tokenize (s : string) : list string := split (sub_parens s).

(** The characters of a string. *)
Fixpoint chars (s : string) : list Ascii.ascii :=
  match s with
  | EmptyString => []
  | String c s => c :: chars s
  end.

(** A run of characters, none a whitespace or a parenthesis. *)
Definition plain (word : string) : Prop :=
  Forall (λ c, isspace c = false ∧ is_paren c = false) (chars word).

(** A lexeme: one or more such characters. *)
Definition lexeme (t : string) : Prop := t ≠ EmptyString ∧ plain t.

(** A token: a parenthesis on its own, or a lexeme. *)
Definition token (t : string) : Prop := t = "(" ∨ t = ")" ∨ lexeme t.

(** One pass over the text that cuts at whitespace and at parentheses. *)
Fixpoint scan (word : string) (s : string) : list string :=
  match s with
  | EmptyString => flush word
  | String c s =>
      if isspace c then flush word ++ scan EmptyString s
      else if is_paren c then
        flush word ++ String c EmptyString :: scan EmptyString s
      else scan (word +:+ String c EmptyString) s
  end.

(** The tokens written out with a space in front of each, as [file_mode]
    puts a space in front of each line. *)
Definition spaced (tokens : list string) : string :=
  foldr (λ t acc, String " "%char (t +:+ acc)) EmptyString tokens.

(** * Vocabulary of the properties *)

(** ** Fuel

    [m ⊑ m'] says that [m'] answers as [m] wherever [m] answers within its
    fuel. *)

Definition answers_as {A} (m m' : M A) : Prop :=
  ∀ σ, m σ ≠ OutOfFuel → m' σ = m σ.

Infix "⊑" := answers_as (at level 70).

Definition ev_le (ev ev' : evaluator) : Prop :=
  ∀ e env, ev e env ⊑ ev' e env.

(** ** Environment chains *)

(** A parent is an older object than its child: [Env(bindings, parent)]
    is the only place a parent link is set, on a new object. *)
Definition older_parent (e : loc) (E : Env.t) : bool :=
  match Env.parent E with
  | Some p => bool_decide (p < e)%nat
  | None => true
  end.

Definition wf_envs (h : list Env.t) : bool :=
  forallb (λ eE, older_parent eE.1 eE.2) (imap pair h).

(** The environments reached from [e] by parent links, innermost first. *)
Inductive chain (h : list Env.t) : loc → list loc → Prop :=
  | chain_root e E :
      h !! e = Some E → Env.parent E = None → chain h e [e]
  | chain_link e E p c :
      h !! e = Some E → Env.parent E = Some p → chain h p c →
      chain h e (e :: c).

(** [var in self.bindings], for the environment at [e]. *)
Definition binds (h : list Env.t) (e : loc) (var : string) (v : value) : Prop :=
  ∃ E, h !! e = Some E ∧ Env.bindings E !! var = Some v.

Definition unbound (h : list Env.t) (e : loc) (var : string) : Prop :=
  ∃ E, h !! e = Some E ∧ Env.bindings E !! var = None.

(** ** The store invariant

    Parent links lead to older objects and every environment a closure
    holds exists. *)

Definition value_ok (n : nat) (v : value) : Prop :=
  match v with
  | VClosure _ _ _ e => (e < n)%nat
  | _ => True
  end.

#[global] Instance value_ok_dec n v : Decision (value_ok n v).
Proof. destruct v; simpl; apply _. Defined.

Definition store_ok (σ : store) : Prop :=
  wf_envs (envs σ) ∧
  Forall (λ E, map_Forall (λ _ v, value_ok (length (envs σ)) v) (Env.bindings E))
         (envs σ).

#[global] Instance store_ok_dec σ : Decision (store_ok σ).
Proof. unfold store_ok. apply _. Defined.

(** [σ'] has every environment of [σ], with the parent it had. *)
Definition extends (σ σ' : store) : Prop :=
  ∀ e E, envs σ !! e = Some E →
         ∃ E', envs σ' !! e = Some E' ∧ Env.parent E' = Env.parent E.

Definition safe {A} (Q : nat → A → Prop) (m : M A) (σ : store) : Prop :=
  match m σ with
  | Return a σ' => store_ok σ' ∧ extends σ σ' ∧ Q (length (envs σ')) a
  | Raise _ σ' => store_ok σ' ∧ extends σ σ'
  | OutOfFuel => True
  | Dangling => False
  end.

Definition ev_safe (ev : evaluator) : Prop :=
  ∀ e env σ, store_ok σ → (env < length (envs σ))%nat →
             safe value_ok (ev e env) σ.

(** ** Forms, programs and stores of the examples *)

Definition if_form (test consequent alternative : expr) : expr :=
  EList [ESym "if"; test; consequent; alternative].

Definition and_form (operands : list expr) : expr := EList (ESym "and" :: operands).
Definition or_form (operands : list expr) : expr := EList (ESym "or" :: operands).

(** [(/ 1 0)], which raises when it is evaluated. *)
Definition one_over_zero : expr := EList [ESym "/"; num 1; num 0].

(** [(define if +)], and the global environment after it. *)
Definition define_if_plus : expr := EList [ESym "define"; ESym "if"; ESym "+"].

Definition if_bound_store : store :=
  Store [Env.Build (<["if" := VBuiltin BAdd]> global_bindings) None] 0.

(** [(define x 1) (define f (lambda () x)) (define x 2) (f)] *)
Definition aliasing_program : list expr :=
  [ EList [ESym "define"; ESym "x"; num 1];
    EList [ESym "define"; ESym "f"; EList [ESym "lambda"; EList []; ESym "x"]];
    EList [ESym "define"; ESym "x"; num 2];
    EList [ESym "f"] ].

(** [(define fact (lambda (n) (if (<= n 1) 1 ( * n (fact (- n 1))))))]
    and [(fact 5)] *)
Definition factorial_program : list expr :=
  [ EList [ESym "define"; ESym "fact";
           EList [ESym "lambda"; EList [ESym "n"];
                  if_form (EList [ESym "<="; ESym "n"; num 1])
                          (num 1)
                          (EList [ESym "*"; ESym "n";
                                  EList [ESym "fact";
                                         EList [ESym "-"; ESym "n"; num 1]]])]];
    EList [ESym "fact"; num 5] ].

(** A store with a child of the global environment: both bind [x]. *)
Definition shadowing_store : store :=
  Store [ Env.Build (<["x" := VInt 1]> global_bindings) None;
          Env.Build {["x" := VInt 99]} (Some global_env) ] 0.

(** [((lambda (x y) x) 1)] and [((lambda (x) x) 1 2)] *)
Definition two_params_one_arg : expr :=
  EList [EList [ESym "lambda"; EList [ESym "x"; ESym "y"]; ESym "x"]; num 1].

Definition one_param_two_args : expr :=
  EList [EList [ESym "lambda"; EList [ESym "x"]; ESym "x"]; num 1; num 2].

(** [((lambda (x) (lambda (y) x)) 1)]: a call that makes an environment
    and returns a closure over it. *)
Definition closure_over_call : expr :=
  EList [EList [ESym "lambda"; EList [ESym "x"];
                EList [ESym "lambda"; EList [ESym "y"]; ESym "x"]];
         num 1].

(** [(not 0)] *)
Definition not_zero : expr := EList [ESym "not"; num 0].



(** * Vocabulary of the further properties *)

(** The names [evaluate] never looks up at the head of a list. *)
Definition special_names : list string :=
  ["define"; "if"; "lambda"; "and"; "or"].

(** [form] is not one of those names. *)
Definition ordinary_head (form : expr) : Prop :=
  ∀ s, form = ESym s → s ∉ special_names.

(** Every name an environment of [σ] binds, that environment of [σ'] binds
    too. *)
Definition names_kept (σ σ' : store) : Prop :=
  ∀ e E key, envs σ !! e = Some E → is_Some (Env.bindings E !! key) →
             ∃ E', envs σ' !! e = Some E' ∧ is_Some (Env.bindings E' !! key).

(** [m] takes a store to one that [R] relates to it, when it answers. *)
Definition relates {A} (R : store → store → Prop) (m : M A) : Prop :=
  ∀ σ, match m σ with
       | Return _ σ' | Raise _ σ' => R σ σ'
       | OutOfFuel | Dangling => True
       end.

(** The operands [args] evaluated in turn from [σ], each in the store the
    one before it left, give the values [vs] and leave [σ']. *)
Inductive in_turn (ev : evaluator) (env : loc)
    : list expr → store → list value → store → Prop :=
  | in_turn_nil σ : in_turn ev env [] σ [] σ
  | in_turn_cons a args σ v σ1 vs σ2 :
      ev a env σ = Return v σ1 → in_turn ev env args σ1 vs σ2 →
      in_turn ev env (a :: args) σ (v :: vs) σ2.

(** * The drivers on text

    [file_mode] reads the lines of a file and [repl_mode] the lines typed
    at its prompt.  Both are given here as functions of those lines; what
    they print with [sprint] and as [Error: ...] is the list of events,
    the prompt and the farewell of [repl_mode] are left out. *)

(** [str.strip()]: whitespace off both ends. *)
Fixpoint lstrip (s : string) : string :=
  match s with
  | EmptyString => EmptyString
  | String c s' => if isspace c then lstrip s' else s
  end.

Fixpoint rstrip (s : string) : string :=
  match s with
  | EmptyString => EmptyString
  | String c s' =>
      match rstrip s' with
      | EmptyString => if isspace c then EmptyString else String c EmptyString
      | r => String c r
      end
  end.

Definition strip (s : string) : string := rstrip (lstrip s).

(** [s.startswith(p)] *)
Definition startswith (s p : string) : bool := String.prefix p s.

(** [s.count(c)] for a single character [c]. *)
Fixpoint count (s : string) (c : Ascii.ascii) : nat :=
  match s with
  | EmptyString => 0%nat
  | String d s => ((if Ascii.eqb d c then 1 else 0) + count s c)%nat
  end.

(** [s.isspace()]: at least one character, and whitespace only. *)
Definition str_isspace (s : string) : bool :=
  match s with
  | EmptyString => false
  | _ => forallb isspace (chars s)
  end.

(** What a driver prints for a form: [sprint(result)], or the report of an
    exception it catches. *)
Inductive event : Type :=
  | Printed (v : value)
  | Error (x : exn).

(** How a driver ends: it returns, an exception of the evaluation that it
    does not catch leaves it, the ValueError of [sprint] leaves it (no
    [except] clause lists ValueError), or an evaluation does not answer
    within the fuel. *)
Inductive ending : Type :=
  | Finished
  | Uncaught (x : exn)
  | UncaughtValueError
  | Unanswered.

Definition transcript : Type := list event * ending.

Definition emit (events : list event) (t : transcript) : transcript :=
  (events ++ t.1, t.2).

(** The host writes an int in decimal only up to this number of digits
    ([sys.get_int_max_str_digits()], by default). *)
Definition max_str_digits : Z := 4300.

(** [sprint(value)]: a Boolean, a float and a procedure always have a
    text; [print(value)] of an int with more digits than the host converts
    raises ValueError, which is [None] here. *)
Definition sprint (v : value) : option event :=
  match v with
  | VInt z =>
      if bool_decide (Z.abs z < 10 ^ max_str_digits) then Some (Printed v)
      else None
  | _ => Some (Printed v)
  end.

(** The [try] statement around a form: [sprint] of a result other than
    None, inside the [try], so that its ValueError ends the driver;
    [Error:] for the four exceptions caught; and [next] goes on with the
    lines left. *)
Definition report (o : outcome value) (next : store → transcript)
    : transcript :=
  match o with
  | Return v σ =>
      match v with
      | VNone => next σ
      | _ =>
          match sprint v with
          | Some event => emit [event] (next σ)
          | None => ([], UncaughtValueError)
          end
      end
  | Raise x σ => if caught x then emit [Error x] (next σ) else ([], Uncaught x)
  | OutOfFuel | Dangling => ([], Unanswered)
  end.

(** The test [file_mode] makes before it submits its buffer: parentheses
    are counted, not matched. *)
Definition ready (source_buffer : string) : bool :=
  let open_parens := count source_buffer "("%char in
  let close_parens := count source_buffer ")"%char in
  (bool_decide (0 < open_parens)%nat
   && bool_decide (open_parens = close_parens))
  || (bool_decide (open_parens = 0%nat) && bool_decide (close_parens = 0%nat)
      && negb (str_isspace source_buffer)).

(** The lines [file_mode] passes over: blank ones and comments. *)
Definition passed_over (line : string) : bool :=
  bool_decide (strip line = EmptyString) || startswith (strip line) ";".

Section Drivers.

Variable py_float : string → option float.
Variable fuel : nat.

(** [evaluate(parse(tokenize(text)), env)] with the global environment;
    the tokens [parse] leaves are dropped with the list. *)
Definition interpret (text : string) : M value :=
  λ σ, match parse py_float (tokenize text) with
       | Some (inr (e, _)) => evaluate fuel e global_env σ
       | Some (inl x) => Raise x σ
       | None => OutOfFuel
       end.

Fixpoint file_mode (lines : list string) (source_buffer : string)
    (σ : store) : transcript :=
  match lines with
  | [] => ([], Finished)
  | line :: lines =>
      if passed_over line then file_mode lines source_buffer σ
      else
        let source_buffer := source_buffer +:+ String " "%char (strip line) in
        if ready source_buffer then
          report (interpret source_buffer σ) (file_mode lines EmptyString)
        else file_mode lines source_buffer σ
  end.

(** The inputs are the lines [input] returns; at their end it raises
    EOFError, which ends the loop as [exit] does. *)
Fixpoint repl_mode (inputs : list string) (σ : store) : transcript :=
  match inputs with
  | [] => ([], Finished)
  | expr :: inputs =>
      if bool_decide (strip expr = EmptyString) then repl_mode inputs σ
      else if bool_decide (strip expr = "exit") then ([], Finished)
      else report (interpret expr σ) (repl_mode inputs)
  end.

End Drivers.

(** The number of tokens equal to [t]. *)
Definition occurrences (t : string) (tokens : list string) : nat :=
  length (filter (λ u, u = t) tokens).

(** Parentheses never close more than was opened, along [tokens]. *)
Definition never_negative (tokens : list string) : Prop :=
  ∀ u, u `prefix_of` tokens → (occurrences ")" u ≤ occurrences "(" u)%nat.

(** As many parentheses closed as opened. *)
Definition balanced (tokens : list string) : Prop :=
  occurrences "(" tokens = occurrences ")" tokens.

(** Before the end of [tokens] a parenthesis is still open. *)
Definition open_inside (tokens : list string) : Prop :=
  ∀ u, u `prefix_of` tokens → u ≠ [] → u ≠ tokens →
       (occurrences ")" u < occurrences "(" u)%nat.

(** The lines [file_mode] adds to its buffer. *)
Definition kept (lines : list string) : list string :=
  filter (λ line, passed_over line = false) lines.


(** * The test runner, [test_runner.py]

    [load_tests_from_file] reads the expected results out of the comments
    of a test file, and the loop of the main program compares them with
    the lines an interpreter printed. *)

Module TestRunner.

(** The exceptions of the loader: its [assert], and the subscript
    [line.split(":")[1]]. *)
Inductive exn : Set :=
  | AssertionError
  | IndexError.

Record TestCase : Type := Build_TestCase {
  expression : string;
  expected : string;
}.

(** [s.split(sep)] for a single character: the pieces between the
    occurrences of [sep], [word] being the piece under way. *)
Fixpoint split_sep (sep : Ascii.ascii) (word : string) (s : string)
    : list string :=
  match s with
  | EmptyString => [word]
  | String c s =>
      if Ascii.eqb c sep then word :: split_sep sep EmptyString s
      else split_sep sep (word +:+ String c EmptyString) s
  end.

(** The loop over the lines of the file. *)
Fixpoint load_tests (lines : list string) (last_line : option string)
    (tests : list TestCase) : exn + list TestCase :=
  match lines with
  | [] => inr tests
  | line :: lines =>
      let line := strip line in
      if startswith line "; expected:" then
        match split_sep ":"%char EmptyString line !! 1%nat with
        | None => inl IndexError
        | Some piece =>
            let expected := strip piece in
            match last_line with
            | None => inl AssertionError
            | Some last_line =>
                load_tests lines None
                  (tests ++ [Build_TestCase last_line expected])
            end
        end
      else if bool_decide (line ≠ EmptyString) then
        load_tests lines (Some line) tests
      else load_tests lines last_line tests
  end.

Definition load_tests_from_file (lines : list string)
    : exn + list TestCase :=
  load_tests lines None [].

(** The line boundaries of [str.splitlines] among the code points below
    256. *)
Definition is_linebreak (c : Ascii.ascii) : bool :=
  let n := Ascii.N_of_ascii c in
  bool_decide (10 ≤ n ≤ 13 ∨ 28 ≤ n ≤ 30 ∨ n = 133)%N.

(** [s.splitlines()]: [line] is the line under way; a carriage return
    followed by a line feed is one boundary, and what follows the last
    boundary is a line when it is not empty. *)
Fixpoint splitlines_from (line : string) (s : string) : list string :=
  match s with
  | EmptyString => flush line
  | String c s' =>
      if is_linebreak c then
        line ::
          match s' with
          | EmptyString => []
          | String d s'' =>
              if Ascii.eqb c "013"%char && Ascii.eqb d "010"%char then
                splitlines_from EmptyString s''
              else splitlines_from EmptyString s'
          end
      else splitlines_from (line +:+ String c EmptyString) s'
  end.

Definition splitlines (s : string) : list string :=
  splitlines_from EmptyString s.

(** How the loop over the tests of one file ends: every test matched, a
    test did not, or there was no line of output left for a test
    ([output.splitlines()[i]] raises IndexError). *)
Inductive verdict : Type :=
  | Passed
  | Failed (test : TestCase)
  | NoLine.

Section Verdict.

(** The host's [float(value)], [None] for its ValueError. *)
Variable py_float : string → option float.

Definition is_float (value : string) : bool :=
  bool_decide (is_Some (py_float value)).

(** [expected != actual], after both were made floats when both read as
    floats. *)
Definition differ (expected actual : string) : bool :=
  match py_float expected, py_float actual with
  | Some x, Some y =>
      match PyFloat.compare x y with
      | Some Eq => false
      | _ => true
      end
  | _, _ => bool_decide (expected ≠ actual)
  end.

(** The tests from the [i]th on, against [lines], the list
    [output.splitlines()] of the stripped output. *)
Fixpoint judge (tests : list TestCase) (lines : list string) (i : nat)
    : verdict :=
  match tests with
  | [] => Passed
  | test :: tests =>
      match lines !! i with
      | None => NoLine
      | Some actual =>
          if differ (expected test) actual then Failed test
          else judge tests lines (S i)
      end
  end.

(** [output = result.stdout.strip()] and the loop over the tests, for the
    text [stdout] of an interpreter that returned 0. *)
Definition verdict_on (tests : list TestCase) (stdout : string) : verdict :=
  judge tests (splitlines (strip stdout)) 0.

End Verdict.

End TestRunner.

(** The test file written for the pairs of an expression and its expected
    result: the expression on a line, the result in a comment on the
    next. *)
Definition test_lines (pairs : list (string * string)) : list string :=
  mjoin ((λ p, [p.1; "; expected:" +:+ p.2]) <$> pairs).

(** A test as [load_tests_from_file] keeps it: both texts stripped, an
    expression that is not empty and no colon in the expected result. *)
Definition loaded_test (t : TestRunner.TestCase) : Prop :=
  TestRunner.expression t ≠ EmptyString
  ∧ strip (TestRunner.expression t) = TestRunner.expression t
  ∧ strip (TestRunner.expected t) = TestRunner.expected t
  ∧ ":"%char ∉ chars (TestRunner.expected t).

(** * Properties *)

(** ** Host arithmetic on known values

    What CPython answers on these inputs, bit for bit. *)

Example float_of_120 : PyFloat.of_Z 120 = S754_finite false 8444249301319680 (-46).
Proof. reflexivity. Qed.

Example float_ties_to_even :
  PyFloat.of_Z (2 ^ 53 + 1) = PyFloat.of_Z (2 ^ 53)
  ∧ PyFloat.of_Z (2 ^ 53 + 3) = PyFloat.of_Z (2 ^ 53 + 4).
Proof. split; by vm_compute. Qed.

Example float_of_huge :
  Py.to_float (Py.NInt (2 ^ 1024 - 2 ^ 970)) = inl OverflowError
  ∧ Py.to_float (Py.NInt (2 ^ 1024 - 2 ^ 970 - 1))
    = inr (S754_finite false (2 ^ 53 - 1) 971).
Proof. split; by vm_compute. Qed.

Example one_third :
  Py.truediv (VInt 1) (VInt 3) = inr (VFloat (S754_finite false 6004799503160661 (-54)))
  ∧ Py.truediv (VFloat (PyFloat.of_Z 1)) (VFloat (PyFloat.of_Z 3))
    = inr (VFloat (S754_finite false 6004799503160661 (-54))).
Proof. split; by vm_compute. Qed.

Example int_division_edges :
  Py.truediv (VInt 0) (VInt (-1)) = inr (VFloat (S754_zero true))
  ∧ Py.truediv (VInt (-7)) (VInt (2 ^ 1080)) = inr (VFloat (S754_zero true))
  ∧ Py.truediv (VInt (2 ^ 1080)) (VInt 3) = inl OverflowError
  ∧ Py.truediv (VInt (2 ^ 60 + 1)) (VInt 3)
    = inr (VFloat (S754_finite false 6004799503160661 6))
  ∧ Py.truediv (VInt (10 ^ 400)) (VFloat (S754_zero false)) = inl OverflowError.
Proof. split_and!; by vm_compute. Qed.

Example mixed_comparisons :
  Py.eq (VInt (2 ^ 53 + 1)) (VFloat (PyFloat.of_Z (2 ^ 53))) = false
  ∧ Py.gt (VInt (2 ^ 53 + 1)) (VFloat (PyFloat.of_Z (2 ^ 53))) = inr (VBool true)
  ∧ Py.lt (VBool true) (VFloat (PyFloat.of_Z 2)) = inr (VBool true)
  ∧ Py.eq (VFloat S754_nan) (VFloat S754_nan) = false
  ∧ Py.le (VFloat S754_nan) (VFloat S754_nan) = inr (VBool false)
  ∧ Py.eq VNone VNone = true
  ∧ Py.eq VNone (VInt 0) = false.
Proof. split_and!; by vm_compute. Qed.

Example sums :
  Py.sum [] = inr (VInt 0)
  ∧ Py.sum [VBool true; VBool true] = inr (VInt 2)
  ∧ Py.sum [VFloat (S754_zero true)] = inr (VFloat (S754_zero false))
  ∧ Py.neg (VBool true) = inr (VInt (-1))
  ∧ builtin_sub [VFloat (PyFloat.of_Z 5); VFloat (PyFloat.of_Z 2)]
    = inr (VFloat (PyFloat.of_Z 3)).
Proof. split_and!; by vm_compute. Qed.

(** The programs of the examples, read from their tokens. *)
Example aliasing_program_tokens :
  [ parse float_of_digits ["("; "define"; "x"; "1"; ")"];
    parse float_of_digits
      ["("; "define"; "f"; "("; "lambda"; "("; ")"; "x"; ")"; ")"];
    parse float_of_digits ["("; "define"; "x"; "2"; ")"];
    parse float_of_digits ["("; "f"; ")"] ]
  = (λ e, Some (inr (e, []))) <$> aliasing_program.
Proof. reflexivity. Qed.

Example factorial_program_tokens :
  [ parse float_of_digits
      ["("; "define"; "fact"; "("; "lambda"; "("; "n"; ")";
       "("; "if"; "("; "<="; "n"; "1"; ")"; "1";
       "("; "*"; "n"; "("; "fact"; "("; "-"; "n"; "1"; ")"; ")"; ")"; ")";
       ")"; ")"];
    parse float_of_digits ["("; "fact"; "5"; ")"] ]
  = (λ e, Some (inr (e, []))) <$> factorial_program.
Proof. reflexivity. Qed.

Example dict_zip_last_wins :
  dict_zip ["x"; "x"; "y"] [VInt 1; VInt 2] = {["x" := VInt 2]}.
Proof. reflexivity. Qed.

(** ** The parser *)

Section ParserFacts.

Variable py_float : string → option float.

Abbreviation parse_fuel' := (parse_fuel py_float).
Abbreviation spells' := (spells py_float).
Abbreviation spells_seq' := (spells_seq py_float).

(** What a successful run consumed spells the expression returned, and a
    loop stops in front of a closing parenthesis or at the end. *)
Lemma parse_fuel_sound n :
  ∀ tokens e rest,
    parse_fuel' n tokens = Some (inr (e, rest)) →
    ∃ used, tokens = used ++ rest ∧ spells' used e.
Proof.
  induction n as [|n IH]; intros tokens e rest; [done|].
  assert (Hloop : ∀ k toks L L' rest',
    parse_loop (parse_fuel' n) k toks L = Some (inr (L', rest')) →
    ∃ used es, toks = used ++ rest' ∧ L' = L ++ es ∧ spells_seq' used es).
  { induction k as [|k IHk]; intros toks L L' rest'; [done|].
    simpl. destruct toks as [|t toks].
    - intros [= <- <-]. exists [], []. split_and!; [done|by rewrite app_nil_r|constructor].
    - case_bool_decide.
      + intros [= <- <-]. exists [], []. split_and!; [done|by rewrite app_nil_r|constructor].
      + destruct (parse_fuel' n (t :: toks)) as [[x|[e1 toks1]]|] eqn:Hp; [done| |done].
        intros Hk. apply IH in Hp as (u1 & Hu1 & Hs1).
        apply IHk in Hk as (u2 & es & -> & -> & Hs2).
        exists (u1 ++ u2), (e1 :: es). rewrite Hu1, <-!app_assoc.
        split_and!; [done|done|by constructor]. }
  simpl. destruct tokens as [|t tokens]; [done|].
  case_bool_decide as Ho.
  - destruct (parse_loop _ n tokens []) as [[x|[L toks1]]|] eqn:Hl; [done| |done].
    apply Hloop in Hl as (used & es & -> & -> & Hs).
    destruct toks1 as [|c toks1]; [done|].
    case_bool_decide as Hc; [|done]. intros [= <- <-]. subst t c.
    exists ("(" :: used ++ [")"]). split.
    + by rewrite <-app_comm_cons, <-app_assoc.
    + by constructor.
  - case_bool_decide as Hc; [done|]. intros [= <- <-].
    exists [t]. split; [done|by constructor].
Qed.

(** With more fuel than tokens the parser answers, fails only with
    SyntaxError, and consumes at least one token when it succeeds. *)
Lemma parse_fuel_total n :
  ∀ tokens, (length tokens < n)%nat →
    match parse_fuel' n tokens with
    | Some (inl x) => x = SyntaxError
    | Some (inr (_, rest)) => (length rest < length tokens)%nat
    | None => False
    end.
Proof.
  induction n as [|n IH]; intros tokens Hn; [lia|].
  assert (Hloop : ∀ k toks L, (length toks < k)%nat → (length toks < n)%nat →
    match parse_loop (parse_fuel' n) k toks L with
    | Some (inl x) => x = SyntaxError
    | Some (inr (_, rest)) => (length rest ≤ length toks)%nat
    | None => False
    end).
  { induction k as [|k IHk]; intros toks L Hk Hlt; [lia|].
    simpl. destruct toks as [|t toks]; [done|].
    case_bool_decide; [done|].
    specialize (IH (t :: toks) Hlt).
    destruct (parse_fuel' n (t :: toks)) as [[x|[e1 toks1]]|]; [done| |done].
    specialize (IHk toks1 (L ++ [e1])).
    destruct (parse_loop _ k toks1 _) as [[x|[L' rest]]|];
      simpl in *; [apply IHk; lia| |apply IHk; lia].
    etrans; [apply IHk; lia|lia]. }
  simpl. destruct tokens as [|t tokens]; [done|]. simpl in Hn.
  case_bool_decide.
  - specialize (Hloop n tokens []).
    destruct (parse_loop _ n tokens []) as [[x|[L rest]]|];
      [apply Hloop; lia| |apply Hloop; lia].
    destruct rest as [|c rest]; [done|].
    case_bool_decide; [|done]. simpl.
    assert (length (c :: rest) ≤ length tokens)%nat by (apply Hloop; lia).
    simpl in *. lia.
  - case_bool_decide; [done|]. simpl. lia.
Qed.

(** An answer does not change when fuel is added. *)
Lemma parse_loop_mono (p p' : parser) k k' tokens L r :
  (∀ toks r, p toks = Some r → p' toks = Some r) → (k ≤ k')%nat →
  parse_loop p k tokens L = Some r → parse_loop p' k' tokens L = Some r.
Proof.
  intros Hp. revert k' tokens L.
  induction k as [|k IHk]; intros k' tokens L Hk; [done|].
  destruct k' as [|k']; [lia|]. simpl.
  destruct tokens as [|t toks]; [done|].
  case_bool_decide; [done|].
  destruct (p (t :: toks)) as [[x|[e1 toks1]]|] eqn:Hpt; [| |done].
  - by rewrite (Hp _ _ Hpt).
  - rewrite (Hp _ _ Hpt). apply IHk. lia.
Qed.

Lemma parse_fuel_mono n :
  ∀ m tokens r, (n ≤ m)%nat →
    parse_fuel' n tokens = Some r → parse_fuel' m tokens = Some r.
Proof.
  induction n as [|n IH]; intros m tokens r Hm; [done|].
  destruct m as [|m]; [lia|]. simpl.
  destruct tokens as [|t tokens]; [done|].
  case_bool_decide; [|done].
  destruct (parse_loop _ n tokens []) as [r'|] eqn:Hl; [|done].
  eapply (parse_loop_mono _ (parse_fuel' m) _ m) in Hl;
    [by rewrite Hl| |lia].
  intros toks r0. apply IH. lia.
Qed.

Lemma parse_loop_step (p : parser) k t toks L :
  t ≠ ")" →
  parse_loop p (S k) (t :: toks) L =
  match p (t :: toks) with
  | None => None
  | Some (inl x) => Some (inl x)
  | Some (inr (e, toks')) => parse_loop p k toks' (L ++ [e])
  end.
Proof. intros Ht. simpl. by rewrite bool_decide_eq_false_2. Qed.

(** A spelling starts with a token that is not a closing parenthesis. *)
Lemma spells_head ts e :
  spells' ts e → ∃ t ts', ts = t :: ts' ∧ t ≠ ")".
Proof. destruct 1; eauto. Qed.

(** Enough fuel reads a spelling back, whatever follows it. *)
Lemma parse_fuel_complete ts e :
  spells' ts e →
  ∀ rest, ∃ n, parse_fuel' n (ts ++ rest) = Some (inr (e, rest)).
Proof.
  revert ts e.
  apply (spells_mut py_float
    (λ ts e, ∀ rest, ∃ n, parse_fuel' n (ts ++ rest) = Some (inr (e, rest)))
    (λ body es, ∀ rest L, ∃ n,
       parse_loop (parse_fuel' n) n (body ++ ")" :: rest) L
       = Some (inr (L ++ es, ")" :: rest)))).
  - intros t Ho Hc rest. exists 1%nat. simpl.
    by rewrite !bool_decide_eq_false_2.
  - intros body es _ IH rest. destruct (IH rest []) as [n Hn].
    exists (S n). simpl. rewrite <-app_assoc. simpl. by rewrite Hn.
  - intros rest L. exists 1%nat. simpl. by rewrite app_nil_r.
  - intros ts e body es Hs IHs _ IHb rest L.
    destruct (IHs (body ++ ")" :: rest)) as [n1 H1].
    destruct (IHb rest (L ++ [e])) as [n2 H2].
    destruct (spells_head _ _ Hs) as (t & ts' & -> & Ht).
    set (m := S (n1 `max` n2)). exists m.
    rewrite <-app_assoc in H2. rewrite <-app_assoc, <-app_comm_cons.
    unfold m at 2. rewrite parse_loop_step by done.
    rewrite app_comm_cons, (parse_fuel_mono n1 m _ _ ltac:(lia) H1).
    eapply parse_loop_mono; [|by apply Nat.le_max_r|exact H2].
    intros toks r. apply parse_fuel_mono. lia.
Qed.

(** [parse] uses enough fuel: it always answers. *)
Lemma parse_total tokens :
  match parse py_float tokens with
  | Some (inl x) => x = SyntaxError
  | Some (inr (_, rest)) => (length rest < length tokens)%nat
  | None => False
  end.
Proof. apply parse_fuel_total. lia. Qed.

(** [parse] succeeds exactly on the token lists that start with the
    spelling of an expression, returns that expression and leaves the
    tokens after it. *)
Lemma parse_spec tokens e rest :
  parse py_float tokens = Some (inr (e, rest)) ↔
  ∃ used, tokens = used ++ rest ∧ spells' used e.
Proof.
  split; [apply parse_fuel_sound|].
  intros (used & -> & Hs).
  destruct (parse_fuel_complete _ _ Hs rest) as [n Hn].
  pose proof (parse_total (used ++ rest)) as Ht. unfold parse in *.
  destruct (parse_fuel' (S _) (used ++ rest)) as [r|] eqn:Hp; [|done].
  set (m := Nat.max n (S (length (used ++ rest)))).
  apply (parse_fuel_mono _ m) in Hn; [|lia].
  apply (parse_fuel_mono _ m) in Hp; [|lia].
  by rewrite <-Hp, Hn.
Qed.

End ParserFacts.

(** ** Fuel

    An outcome other than [OutOfFuel] is the outcome at every larger fuel.
    [m ⊑ m'] says that [m'] agrees with [m] wherever [m] answers. *)

Lemma answers_as_refl {A} (m : M A) : m ⊑ m.
Proof. by intros σ _. Qed.

Lemma answers_as_bind {A B} (m m' : M A) (k k' : A → M B) :
  m ⊑ m' → (∀ a, k a ⊑ k' a) → (m ≫= k) ⊑ (m' ≫= k').
Proof.
  intros Hm Hk σ. unfold mbind, M_bind. intros H.
  rewrite Hm; [|by destruct (m σ)].
  destruct (m σ); try done. by apply Hk.
Qed.

Create HintDb fuel discriminated.

#[local] Hint Resolve answers_as_refl : fuel.
#[local] Hint Extern 1 (mbind _ _ ⊑ mbind _ _) =>
  apply answers_as_bind; [|intros ?] : fuel.
#[local] Hint Extern 2 ((if ?b then _ else _) ⊑ (if ?b then _ else _)) =>
  destruct b : fuel.
#[local] Hint Extern 1 ((_ ← _; _) ⊑ (_ ← _; _)) =>
  apply answers_as_bind; [|intros ?] : fuel.

(** Case analysis on an entry of the [special_forms] table. *)
Ltac special_form_cases H :=
  unfold special_form, special_forms in H;
  apply elem_of_list_to_map_2 in H;
  rewrite !elem_of_cons, elem_of_nil in H;
  destruct H as [[= _ ->]|[[= _ ->]|[[= _ ->]|[[= _ ->]|[]]]]].

Section Fuel.

Variables ev ev' : evaluator.
Hypothesis Hev : ev_le ev ev'.

#[local] Hint Resolve Hev : fuel.
#[local] Hint Extern 0 (ev _ _ ⊑ ev' _ _) => apply Hev : fuel.

Lemma _define_mono expr env : _define ev expr env ⊑ _define ev' expr env.
Proof.
  unfold _define.
  repeat (case_match; try apply answers_as_refl). auto with fuel.
Qed.

Lemma _if_mono expr env : _if ev expr env ⊑ _if ev' expr env.
Proof.
  unfold _if.
  repeat (case_match; try apply answers_as_refl). auto with fuel.
Qed.

Lemma _lambda_mono expr env : _lambda ev expr env ⊑ _lambda ev' expr env.
Proof. apply answers_as_refl. Qed.

Lemma and_loop_mono args env val :
  and_loop ev args env val ⊑ and_loop ev' args env val.
Proof.
  revert val. induction args as [|arg args IH]; intros val; simpl;
    auto with fuel.
Qed.

Lemma or_loop_mono args env val :
  or_loop ev args env val ⊑ or_loop ev' args env val.
Proof.
  revert val. induction args as [|arg args IH]; intros val; simpl;
    auto with fuel.
Qed.

Lemma _and_mono expr env : _and ev expr env ⊑ _and ev' expr env.
Proof. unfold _and. case_bool_decide; auto using and_loop_mono with fuel. Qed.

Lemma _or_mono expr env : _or ev expr env ⊑ _or ev' expr env.
Proof. unfold _or. case_bool_decide; auto using or_loop_mono with fuel. Qed.

Lemma eval_args_mono args env : eval_args ev args env ⊑ eval_args ev' args env.
Proof. induction args as [|arg args IH]; simpl; auto with fuel. Qed.

Lemma call_mono proc args : call ev proc args ⊑ call ev' proc args.
Proof. destruct proc; simpl; auto with fuel. Qed.

Lemma special_form_mono form h expr env :
  special_form form = Some h → h ev expr env ⊑ h ev' expr env.
Proof.
  destruct form as [| |s|]; try done. intros Hs. special_form_cases Hs.
  - apply _if_mono.
  - apply _lambda_mono.
  - apply _and_mono.
  - apply _or_mono.
Qed.

End Fuel.

Lemma evaluate_S fuel : ev_le (evaluate fuel) (evaluate (S fuel)).
Proof.
  induction fuel as [|fuel IH]; intros e env; [by intros σ|].
  change (evaluate (S fuel) e env) with
    (match e with
     | ENum x => mret (VFloat x)
     | EBool b => mret (VBool b)
     | ESym s => env_get env s
     | EList [] => raise SyntaxError
     | EList ((form :: rest) as l) =>
         if is_symbol form "define" then _define (evaluate fuel) l env
         else
           match special_form form with
           | Some h => h (evaluate fuel) l env
           | None =>
               proc ← evaluate fuel form env;
               if Py.callable proc then
                 args ← eval_args (evaluate fuel) rest env;
                 call (evaluate fuel) proc args
               else raise TypeError
           end
     end).
  remember (S fuel) as fuel' eqn:Hf. simpl. subst fuel'.
  destruct e as [x|b|s|[|form rest]]; try apply answers_as_refl.
  destruct (is_symbol form "define"); [by apply _define_mono|].
  destruct (special_form form) as [h|] eqn:Hh; [by eapply special_form_mono|].
  apply answers_as_bind; [apply IH|intros proc].
  destruct (Py.callable proc); [|apply answers_as_refl].
  apply answers_as_bind; [by apply eval_args_mono|intros args].
  by apply call_mono.
Qed.

Lemma evaluate_mono fuel fuel' :
  (fuel ≤ fuel')%nat → ev_le (evaluate fuel) (evaluate fuel').
Proof.
  induction 1 as [|fuel' _ IH]; intros e env σ H; [done|].
  rewrite <-IH by done. apply evaluate_S. by rewrite IH.
Qed.

(** ** Environment chains *)

Lemma wf_envs_parent h e E p :
  wf_envs h → h !! e = Some E → Env.parent E = Some p → (p < e)%nat.
Proof.
  unfold wf_envs. rewrite forallb_True, Forall_lookup. intros Hwf He Hp.
  specialize (Hwf e (e, E)). rewrite list_lookup_imap, He in Hwf.
  specialize (Hwf eq_refl). unfold older_parent in Hwf. simpl in Hwf.
  rewrite Hp in Hwf. by apply bool_decide_unpack in Hwf.
Qed.

(** On a well-formed store the walk does not depend on its bound. *)
Lemma find_from_enough h var :
  wf_envs h → ∀ n m e, (e < n)%nat → (e < m)%nat →
    Env.find_from n h e var = Env.find_from m h e var.
Proof.
  intros Hwf. induction n as [|n IH]; intros m e Hn Hm; [lia|].
  destruct m as [|m]; [lia|]. simpl.
  destruct (h !! e) as [E|] eqn:He; [|done].
  destruct (Env.bindings E !! var); [done|].
  destruct (Env.parent E) as [p|] eqn:Hp; [|done].
  pose proof (wf_envs_parent _ _ _ _ Hwf He Hp). apply IH; lia.
Qed.

(** [Env.find], as the source has it. *)
Lemma find_unfold h e var :
  wf_envs h →
  Env.find h e var =
  match h !! e with
  | None => None
  | Some E =>
      match Env.bindings E !! var with
      | Some _ => Some (inr e)
      | None =>
          match Env.parent E with
          | Some p => Env.find h p var
          | None => Some (inl NameError)
          end
      end
  end.
Proof.
  intros Hwf. unfold Env.find.
  destruct (h !! e) as [E|] eqn:He.
  - pose proof (lookup_lt_Some _ _ _ He) as Hlt.
    rewrite (find_from_enough h var Hwf (length h) (S e) e) by lia.
    simpl. rewrite He.
    destruct (Env.bindings E !! var); [done|].
    destruct (Env.parent E) as [p|] eqn:Hp; [|done].
    pose proof (wf_envs_parent _ _ _ _ Hwf He Hp).
    apply find_from_enough; [done|lia..].
  - destruct (length h); simpl; by rewrite ?He.
Qed.

(** Every environment of a well-formed store has a chain. *)
Lemma chain_exists h e :
  wf_envs h → (e < length h)%nat → ∃ c, chain h e c.
Proof.
  intros Hwf. induction (lt_wf e) as [e _ IH]. intros He.
  destruct (lookup_lt_is_Some_2 _ _ He) as [E HE].
  destruct (Env.parent E) as [p|] eqn:Hp.
  - pose proof (wf_envs_parent _ _ _ _ Hwf HE Hp) as Hlt.
    destruct (IH p Hlt) as [c Hc]; [lia|].
    exists (e :: c). by econstructor.
  - exists [e]. by econstructor.
Qed.

(** The first environment of the chain that has the name wins. *)
Lemma find_first h e c var :
  wf_envs h → chain h e c →
  ∀ pre f post v,
    c = pre ++ f :: post → Forall (λ g, unbound h g var) pre →
    binds h f var v →
    Env.find h e var = Some (inr f) ∧ Env.getitem h e var = Some (inr v).
Proof.
  intros Hwf Hc.
  assert (Hfind : ∀ pre f post v,
    c = pre ++ f :: post → Forall (λ g, unbound h g var) pre →
    binds h f var v → Env.find h e var = Some (inr f)).
  { induction Hc as [e E HE Hp|e E p c HE Hp Hc IH];
      intros pre f post v Heq Hpre (F & HF & Hv); rewrite find_unfold, HE by done.
    - destruct pre as [|g [|??]]; simplify_eq/=. by rewrite Hv.
    - destruct pre as [|g pre]; simplify_eq/=; [by rewrite Hv|].
      apply Forall_cons in Hpre as [(E' & HE' & Hn) Hpre]. simplify_eq.
      rewrite Hn, Hp. eapply IH; [done..|]. by exists F. }
  intros pre f post v Heq Hpre Hb. split; [by eapply Hfind|].
  unfold Env.getitem. erewrite Hfind by done.
  destruct Hb as (F & -> & Hv). simpl. by rewrite Hv.
Qed.

(** A name that no environment of the chain has is a NameError. *)
Lemma find_absent h e c var :
  wf_envs h → chain h e c → Forall (λ g, unbound h g var) c →
  Env.find h e var = Some (inl NameError).
Proof.
  intros Hwf. induction 1 as [e E HE Hp|e E p c HE Hp Hc IH]; intros Hall;
    rewrite find_unfold, HE by done;
    apply Forall_cons in Hall as [(E' & HE' & Hn) Hall]; simplify_eq;
    rewrite Hn, Hp; [done|by apply IH].
Qed.

(** [env[key] = v] changes the dictionary of [env] and nothing else. *)
Lemma setitem_lookup h e key v g :
  Env.setitem h e key v !! g =
  if decide (e = g) then
    (λ E, Env.Build (<[key := v]> (Env.bindings E)) (Env.parent E)) <$> h !! e
  else h !! g.
Proof. apply list_lookup_alter. Qed.

Lemma wf_envs_spec h :
  wf_envs h ↔ ∀ e E, h !! e = Some E → older_parent e E.
Proof.
  unfold wf_envs. rewrite forallb_True, Forall_lookup. split.
  - intros Hwf e E He. apply (Hwf e (e, E)). by rewrite list_lookup_imap, He.
  - intros Hwf e [g E]. rewrite list_lookup_imap.
    destruct (h !! e) as [E'|] eqn:He; simpl; [|done].
    intros [= <- <-]. by apply Hwf.
Qed.

Lemma wf_envs_setitem h e key v : wf_envs h → wf_envs (Env.setitem h e key v).
Proof.
  rewrite !wf_envs_spec. intros Hwf g E. rewrite setitem_lookup.
  case_decide as Hg; [|by apply Hwf]. subst g.
  destruct (h !! e) as [E'|] eqn:He; simpl; [|done].
  intros [= <-]. exact (Hwf e E' He).
Qed.

Lemma wf_envs_new h b p :
  wf_envs h → (p < length h)%nat → wf_envs (h ++ [Env.Build b (Some p)]).
Proof.
  rewrite !wf_envs_spec. intros Hwf Hp e E.
  rewrite lookup_app, list_lookup_singleton.
  destruct (h !! e) as [E'|] eqn:He; [intros [= <-]; by apply Hwf|].
  apply lookup_ge_None in He.
  destruct (e - length h)%nat eqn:Hd; simpl; [|done]. intros [= <-].
  unfold older_parent. simpl. apply bool_decide_pack. lia.
Qed.

(** One step of [evaluate], as the source has it. *)
Lemma evaluate_S_eq fuel e env :
  evaluate (S fuel) e env =
  match e with
  | ENum x => mret (VFloat x)
  | EBool b => mret (VBool b)
  | ESym s => env_get env s
  | EList [] => raise SyntaxError
  | EList ((form :: rest) as l) =>
      if is_symbol form "define" then _define (evaluate fuel) l env
      else
        match special_form form with
        | Some h => h (evaluate fuel) l env
        | None =>
            proc ← evaluate fuel form env;
            if Py.callable proc then
              args ← eval_args (evaluate fuel) rest env;
              call (evaluate fuel) proc args
            else raise TypeError
        end
  end.
Proof. reflexivity. Qed.

(** ** Dispatch on the head of a form *)

Lemma special_form_if : special_form (ESym "if") = Some _if.
Proof. reflexivity. Qed.

Lemma special_form_lambda : special_form (ESym "lambda") = Some _lambda.
Proof. reflexivity. Qed.

Lemma special_form_and : special_form (ESym "and") = Some _and.
Proof. reflexivity. Qed.

Lemma special_form_or : special_form (ESym "or") = Some _or.
Proof. reflexivity. Qed.

Lemma evaluate_define fuel rest env :
  evaluate (S fuel) (EList (ESym "define" :: rest)) env =
  _define (evaluate fuel) (ESym "define" :: rest) env.
Proof. reflexivity. Qed.

Lemma evaluate_if fuel rest env :
  evaluate (S fuel) (EList (ESym "if" :: rest)) env =
  _if (evaluate fuel) (ESym "if" :: rest) env.
Proof. by rewrite evaluate_S_eq, special_form_if. Qed.

Lemma evaluate_lambda fuel rest env :
  evaluate (S fuel) (EList (ESym "lambda" :: rest)) env =
  _lambda (evaluate fuel) (ESym "lambda" :: rest) env.
Proof. by rewrite evaluate_S_eq, special_form_lambda. Qed.

Lemma evaluate_and fuel rest env :
  evaluate (S fuel) (EList (ESym "and" :: rest)) env =
  _and (evaluate fuel) (ESym "and" :: rest) env.
Proof. by rewrite evaluate_S_eq, special_form_and. Qed.

Lemma evaluate_or fuel rest env :
  evaluate (S fuel) (EList (ESym "or" :: rest)) env =
  _or (evaluate fuel) (ESym "or" :: rest) env.
Proof. by rewrite evaluate_S_eq, special_form_or. Qed.

(** How a bind runs once its first computation is known. *)
Lemma bind_Return {A B} (m : M A) (k : A → M B) σ a σ' :
  m σ = Return a σ' → (m ≫= k) σ = k a σ'.
Proof. unfold mbind, M_bind. by intros ->. Qed.

Lemma bind_Raise {A B} (m : M A) (k : A → M B) σ x σ' :
  m σ = Raise x σ' → (m ≫= k) σ = Raise x σ'.
Proof. unfold mbind, M_bind. by intros ->. Qed.

Lemma is_False_true v : Py.is_False v = true ↔ v = VBool false.
Proof. by destruct v as [| [] | | | |]. Qed.

Lemma is_False_false v : Py.is_False v = false ↔ v ≠ VBool false.
Proof. destruct v as [| [] | | | |]; naive_solver. Qed.

(** ** The store invariant

    Parent links lead to older objects and every environment a closure
    holds exists.  [evaluate] keeps that, only ever adds environments, and
    never changes a parent link; on such a store it never meets a location
    without an object. *)

Lemma store_ok_spec σ :
  store_ok σ ↔
  wf_envs (envs σ) ∧
  ∀ e E x v, envs σ !! e = Some E → Env.bindings E !! x = Some v →
             value_ok (length (envs σ)) v.
Proof.
  unfold store_ok. rewrite Forall_lookup. unfold map_Forall.
  split; intros [Hwf Hvals]; (split; [done|]).
  - intros e E x v HE Hx. by eapply Hvals.
  - intros e E HE x v Hx. by eapply Hvals.
Qed.

Lemma value_ok_mono n n' v : (n ≤ n')%nat → value_ok n v → value_ok n' v.
Proof. destruct v; simpl; lia. Qed.

Lemma extends_refl σ : extends σ σ.
Proof. intros e E He. eauto. Qed.

Lemma extends_trans σ1 σ2 σ3 : extends σ1 σ2 → extends σ2 σ3 → extends σ1 σ3.
Proof.
  intros H12 H23 e E He. destruct (H12 e E He) as (E' & He' & Hp).
  destruct (H23 e E' He') as (E'' & He'' & Hp'). exists E''. split; congruence.
Qed.

Lemma extends_length σ σ' : extends σ σ' → (length (envs σ) ≤ length (envs σ'))%nat.
Proof.
  intros Hext. destruct (decide (length (envs σ) = 0%nat)) as [|Hn]; [lia|].
  destruct (lookup_lt_is_Some_2 (envs σ) (pred (length (envs σ)))) as [E HE]; [lia|].
  destruct (Hext _ _ HE) as (E' & HE' & _). apply lookup_lt_Some in HE'. lia.
Qed.

Lemma extends_lt σ σ' e :
  extends σ σ' → (e < length (envs σ))%nat → (e < length (envs σ'))%nat.
Proof. intros Hext%extends_length. lia. Qed.

Lemma safe_ret {A} (Q : nat → A → Prop) a σ :
  store_ok σ → Q (length (envs σ)) a → safe Q (mret a) σ.
Proof. intros. unfold safe. simpl. eauto using extends_refl. Qed.

Lemma safe_raise {A} (Q : nat → A → Prop) x σ :
  store_ok σ → safe Q (raise x) σ.
Proof. intros. unfold safe. simpl. eauto using extends_refl. Qed.

Lemma safe_bind {A B} (Q : nat → A → Prop) (R : nat → B → Prop)
    (m : M A) (k : A → M B) σ :
  safe Q m σ →
  (∀ a σ', store_ok σ' → extends σ σ' → Q (length (envs σ')) a → safe R (k a) σ') →
  safe R (m ≫= k) σ.
Proof.
  unfold safe, mbind, M_bind. destruct (m σ) as [a σ'|x σ'| |]; try done.
  intros (Hok & Hext & HQ) Hk. specialize (Hk a σ' Hok Hext HQ).
  destruct (k a σ') as [b σ''|x σ''| |]; try done.
  - destruct Hk as (? & ? & ?). eauto using extends_trans.
  - destruct Hk as (? & ?). eauto using extends_trans.
Qed.

(** On a well-formed store [find] answers, and with an environment that
    has the name. *)
Lemma find_defined h var e :
  wf_envs h → (e < length h)%nat →
  Env.find h e var = Some (inl NameError)
  ∨ ∃ f v, Env.find h e var = Some (inr f) ∧ binds h f var v.
Proof.
  intros Hwf. induction (lt_wf e) as [e _ IH]. intros He.
  destruct (lookup_lt_is_Some_2 _ _ He) as [E HE].
  rewrite find_unfold, HE by done.
  destruct (Env.bindings E !! var) as [v|] eqn:Hv.
  - right. exists e, v. split; [done|]. by exists E.
  - destruct (Env.parent E) as [p|] eqn:Hp; [|by left].
    pose proof (wf_envs_parent _ _ _ _ Hwf HE Hp). apply IH; [done|lia].
Qed.

Lemma safe_env_get env key σ :
  store_ok σ → (env < length (envs σ))%nat → safe value_ok (env_get env key) σ.
Proof.
  intros Hok Henv. pose proof (proj1 (store_ok_spec σ) Hok) as [Hwf Hvals].
  unfold safe, env_get, Env.getitem.
  destruct (find_defined (envs σ) key env Hwf Henv)
    as [->|(f & v & -> & E & HE & Hv)]; simpl.
  - eauto using extends_refl.
  - rewrite HE. simpl. rewrite Hv. simpl.
    split_and!; [done|apply extends_refl|by eapply Hvals].
Qed.

Lemma safe_env_set env key v σ :
  store_ok σ → (env < length (envs σ))%nat → value_ok (length (envs σ)) v →
  safe (λ _ _, True) (env_set env key v) σ.
Proof.
  intros [Hwf Hvals]%store_ok_spec Henv Hv. unfold safe, env_set.
  destruct (lookup_lt_is_Some_2 _ _ Henv) as [E HE]. rewrite HE.
  split_and!; [apply store_ok_spec; split| |done]; simpl.
  - by apply wf_envs_setitem.
  - intros e E' x w. unfold Env.setitem at 2. rewrite length_alter.
    rewrite setitem_lookup. case_decide as He; [|by apply Hvals].
    subst e. rewrite HE. simpl. intros [= <-]. simpl.
    rewrite lookup_insert. case_decide; [by intros [= <-]|by apply (Hvals env)].
  - intros e E' He. simpl. rewrite setitem_lookup.
    case_decide; [|eauto]. simplify_eq. rewrite HE. simpl. eauto.
Qed.

Lemma safe_env_new b p σ :
  store_ok σ → (p < length (envs σ))%nat →
  map_Forall (λ _ v, value_ok (length (envs σ)) v) b →
  safe (λ n e, (e < n)%nat) (env_new b p) σ.
Proof.
  intros [Hwf Hvals]%store_ok_spec Hp Hb. unfold safe, env_new.
  split_and!; [apply store_ok_spec; split| |]; simpl.
  - by apply wf_envs_new.
  - intros e E x v. rewrite length_app. simpl. intros He Hx.
    apply (value_ok_mono (length (envs σ))); [lia|].
    apply lookup_app_Some in He as [He|[_ He]]; [by eapply Hvals|].
    apply list_lookup_singleton_Some in He as [_ <-]. by apply (Hb x).
  - intros e E He. exists E. split; [|done]. by apply lookup_app_l_Some.
  - rewrite length_app. simpl. lia.
Qed.

Lemma safe_fresh_id σ : store_ok σ → safe (λ _ _, True) fresh_id σ.
Proof.
  intros Hok. unfold safe, fresh_id. split_and!; [exact Hok| |done].
  intros e E He. eauto.
Qed.

(** What a builtin returns holds no environment, but for the operand
    that [*] hands back. *)
Lemma arith_ok fz ff v w r n : Py.arith fz ff v w = inr r → value_ok n r.
Proof.
  unfold Py.arith, Py.bind. intros H.
  repeat (case_match; simplify_eq/=); done.
Qed.

Lemma sum_ok args r n : Py.sum args = inr r → value_ok n r.
Proof.
  unfold Py.sum.
  assert (H : ∀ acc, (∀ a, acc = inr a → value_ok n a) →
    foldl (λ acc v, Py.bind acc (λ s, Py.add s v)) acc args = inr r →
    value_ok n r).
  { induction args as [|v args IH]; intros acc Hacc; simpl; [by apply Hacc|].
    apply IH. intros a. destruct acc as [x|s]; simpl; [done|].
    by apply arith_ok. }
  apply H. by intros a [= <-].
Qed.

Lemma call_builtin_ok b args r n :
  Forall (value_ok n) args → call_builtin b args = inr r → value_ok n r.
Proof.
  intros Hargs. destruct b; simpl.
  - apply sum_ok.
  - unfold builtin_sub, Py.neg, Py.bind. intros H.
    repeat (case_match; simplify_eq/=); try done; by eapply arith_ok.
  - unfold builtin_mul. intros H.
    repeat (case_match; simplify_eq/=); try (by eapply arith_ok).
    eapply Forall_lookup_1; [exact Hargs|done].
  - unfold fixed2, Py.truediv, Py.bind. intros H.
    repeat (case_match; simplify_eq/=); done.
  - unfold fixed2. intros H. repeat (case_match; simplify_eq/=); done.
  - unfold fixed2, Py.le, Py.order. intros H.
    repeat (case_match; simplify_eq/=); done.
  - unfold fixed2, Py.ge, Py.order. intros H.
    repeat (case_match; simplify_eq/=); done.
  - unfold fixed2, Py.lt, Py.order. intros H.
    repeat (case_match; simplify_eq/=); done.
  - unfold fixed2, Py.gt, Py.order. intros H.
    repeat (case_match; simplify_eq/=); done.
  - unfold fixed1. intros H. repeat (case_match; simplify_eq/=); done.
Qed.

Lemma dict_zip_ok params args n :
  Forall (value_ok n) args →
  map_Forall (λ _ v, value_ok n v) (dict_zip params args).
Proof.
  intros Hargs. unfold dict_zip.
  assert (H : ∀ (kvs : list (string * value)) (d : gmap string value),
    Forall (λ kv, value_ok n kv.2) kvs → map_Forall (λ _ v, value_ok n v) d →
    map_Forall (λ _ v, value_ok n v) (foldl (λ d kv, <[kv.1 := kv.2]> d) d kvs)).
  { induction kvs as [|kv kvs IH]; intros d Hkvs Hd; simpl; [done|].
    apply Forall_cons in Hkvs as [Hkv Hkvs].
    apply IH; [done|]. by apply map_Forall_insert_2. }
  apply H; [|apply map_Forall_empty].
  revert args Hargs. induction params as [|p params IH]; intros [|a args] Hargs;
    simpl; try by constructor.
  apply Forall_cons in Hargs as [Ha Hargs]. constructor; [done|by apply IH].
Qed.

Section Safe.

Variable ev : evaluator.
Hypothesis Hev : ev_safe ev.

Lemma safe__define expr env σ :
  store_ok σ → (env < length (envs σ))%nat →
  safe value_ok (_define ev expr env) σ.
Proof.
  intros Hok Henv. unfold _define.
  repeat (case_match; try by apply safe_raise).
  eapply safe_bind; [by apply Hev|]. intros v σ1 Hok1 Hext1 Hv.
  eapply safe_bind; [apply safe_env_set; eauto using extends_lt|].
  intros _ σ2 Hok2 Hext2 _. by apply safe_ret.
Qed.

Lemma safe__if expr env σ :
  store_ok σ → (env < length (envs σ))%nat →
  safe value_ok (_if ev expr env) σ.
Proof.
  intros Hok Henv. unfold _if.
  repeat (case_match; try by apply safe_raise).
  eapply safe_bind; [by apply Hev|]. intros v σ1 Hok1 Hext1 Hv.
  destruct (Py.is_False v); apply Hev; eauto using extends_lt.
Qed.

Lemma safe__lambda expr env σ :
  store_ok σ → (env < length (envs σ))%nat →
  safe value_ok (_lambda ev expr env) σ.
Proof.
  intros Hok Henv. unfold _lambda.
  repeat (case_match; try by apply safe_raise).
  eapply safe_bind; [by apply safe_fresh_id|]. intros id σ1 Hok1 Hext1 _.
  apply safe_ret; [done|]. simpl. eauto using extends_lt.
Qed.

Lemma safe_and_loop args env val σ :
  store_ok σ → (env < length (envs σ))%nat → value_ok (length (envs σ)) val →
  safe value_ok (and_loop ev args env val) σ.
Proof.
  revert val σ. induction args as [|arg args IH]; intros val σ Hok Henv Hval;
    simpl; [by apply safe_ret|].
  eapply safe_bind; [by apply Hev|]. intros v σ1 Hok1 Hext1 Hv.
  destruct (Py.is_False v); [by apply safe_ret|].
  apply IH; eauto using extends_lt.
Qed.

Lemma safe_or_loop args env val σ :
  store_ok σ → (env < length (envs σ))%nat → value_ok (length (envs σ)) val →
  safe value_ok (or_loop ev args env val) σ.
Proof.
  revert val σ. induction args as [|arg args IH]; intros val σ Hok Henv Hval;
    simpl; [by apply safe_ret|].
  eapply safe_bind; [by apply Hev|]. intros v σ1 Hok1 Hext1 Hv.
  destruct (Py.is_False v); [|by apply safe_ret].
  apply IH; eauto using extends_lt.
Qed.

Lemma safe__and expr env σ :
  store_ok σ → (env < length (envs σ))%nat →
  safe value_ok (_and ev expr env) σ.
Proof.
  intros Hok Henv. unfold _and.
  case_bool_decide; [by apply safe_ret|by apply safe_and_loop].
Qed.

Lemma safe__or expr env σ :
  store_ok σ → (env < length (envs σ))%nat →
  safe value_ok (_or ev expr env) σ.
Proof.
  intros Hok Henv. unfold _or.
  case_bool_decide; [by apply safe_ret|by apply safe_or_loop].
Qed.

Lemma safe_eval_args args env σ :
  store_ok σ → (env < length (envs σ))%nat →
  safe (λ n vs, Forall (value_ok n) vs) (eval_args ev args env) σ.
Proof.
  revert σ. induction args as [|arg args IH]; intros σ Hok Henv; simpl;
    [by apply safe_ret|].
  eapply safe_bind; [by apply Hev|]. intros v σ1 Hok1 Hext1 Hv.
  eapply safe_bind; [apply IH; eauto using extends_lt|].
  intros vs σ2 Hok2 Hext2 Hvs. apply safe_ret; [done|].
  constructor; [|done].
  eapply value_ok_mono; [by apply extends_length|done].
Qed.

Lemma safe_call proc args σ :
  store_ok σ → value_ok (length (envs σ)) proc →
  Forall (value_ok (length (envs σ))) args →
  safe value_ok (call ev proc args) σ.
Proof.
  intros Hok Hproc Hargs. destruct proc; simpl; try by apply safe_raise.
  - destruct (call_builtin b args) as [x|r] eqn:Hr; simpl;
      [by apply safe_raise|apply safe_ret; [done|by eapply call_builtin_ok]].
  - eapply safe_bind; [apply safe_env_new; [done..|by apply dict_zip_ok]|].
    intros new σ1 Hok1 Hext1 Hnew. by apply Hev.
Qed.

Lemma safe_special_form form h expr env σ :
  special_form form = Some h →
  store_ok σ → (env < length (envs σ))%nat →
  safe value_ok (h ev expr env) σ.
Proof.
  destruct form as [| |s|]; try done. intros Hs. special_form_cases Hs.
  - apply safe__if.
  - apply safe__lambda.
  - apply safe__and.
  - apply safe__or.
Qed.

End Safe.

(** [evaluate] keeps the invariant, at every fuel. *)
Lemma evaluate_safe fuel : ev_safe (evaluate fuel).
Proof.
  induction fuel as [|fuel IH]; intros e env σ Hok Henv; [done|].
  rewrite evaluate_S_eq.
  destruct e as [x|b|s|[|form rest]];
    [by apply safe_ret|by apply safe_ret|by apply safe_env_get
    |by apply safe_raise|].
  destruct (is_symbol form "define"); [by apply safe__define|].
  destruct (special_form form) as [h|] eqn:Hh; [by eapply safe_special_form|].
  eapply safe_bind; [by apply IH|]. intros proc σ1 Hok1 Hext1 Hproc.
  destruct (Py.callable proc); [|by apply safe_raise].
  eapply safe_bind; [apply safe_eval_args; eauto using extends_lt|].
  intros args σ2 Hok2 Hext2 Hargs. apply safe_call; [done..| |done].
  eapply value_ok_mono; [by apply extends_length|done].
Qed.

Lemma create_global_env_ok : store_ok create_global_env.
Proof. apply (bool_decide_unpack _). by vm_compute. Qed.

(** * The claims *)

(** ** [if] *)

(** C7: an [if] form of exactly four elements evaluates its test first; when
    the test's value is the Boolean false it evaluates and returns the
    alternative, for every other value of the test (every number, zero
    included) it evaluates and returns the consequent, and an exception of
    the test is the form's; an [if] form of any other length fails with
    SyntaxError.  This holds in every environment and store. *)
Theorem if_truthiness fuel env σ test consequent alternative :
  (∀ σ', evaluate fuel test env σ = Return (VBool false) σ' →
     evaluate (S fuel) (if_form test consequent alternative) env σ
     = evaluate fuel alternative env σ')
  ∧ (∀ v σ', evaluate fuel test env σ = Return v σ' → v ≠ VBool false →
     evaluate (S fuel) (if_form test consequent alternative) env σ
     = evaluate fuel consequent env σ')
  ∧ (∀ x σ', evaluate fuel test env σ = Return (VFloat x) σ' →
     evaluate (S fuel) (if_form test consequent alternative) env σ
     = evaluate fuel consequent env σ')
  ∧ (∀ x σ', evaluate fuel test env σ = Raise x σ' →
     evaluate (S fuel) (if_form test consequent alternative) env σ
     = Raise x σ')
  ∧ (∀ rest, length rest ≠ 3%nat →
     evaluate (S fuel) (EList (ESym "if" :: rest)) env σ = Raise SyntaxError σ).
Proof.
  unfold if_form. rewrite evaluate_if. unfold _if. split_and!.
  - intros σ' Ht. by rewrite (bind_Return _ _ _ _ _ Ht).
  - intros v σ' Ht Hv. rewrite (bind_Return _ _ _ _ _ Ht).
    by apply is_False_false in Hv as ->.
  - intros x σ' Ht. by rewrite (bind_Return _ _ _ _ _ Ht).
  - intros x σ' Ht. by rewrite (bind_Raise _ _ _ _ _ Ht).
  - intros rest Hlen. rewrite evaluate_if. unfold _if.
    by destruct rest as [|? [|? [|? [|??]]]].
Qed.

(** [(if 0 1 2)] takes the consequent. *)
Lemma if_truthiness_witness :
  evaluate 2 (if_form (num 0) (num 1) (num 2)) global_env create_global_env
  = Return (VFloat (PyFloat.of_Z 1)) create_global_env.
Proof.
  etrans.
  - apply (proj1 (proj2 (if_truthiness 1 global_env create_global_env
                           (num 0) (num 1) (num 2)))
             (VFloat (PyFloat.of_Z 0)) create_global_env);
      [reflexivity|discriminate].
  - reflexivity.
Defined.

(** ** [and], [or] *)

(** C8: [and] without operands returns true and [or] without operands
    returns false.  [and] evaluates its operands from the left: an operand
    whose value is the Boolean false ends it with false whatever follows,
    any other value of the last operand is the result, and any other value
    of an earlier operand passes on to the operands after it.  [or]
    evaluates its operands from the left: an operand whose value is not the
    Boolean false ends it with that value whatever follows, a false last
    operand gives false, and a false earlier operand passes on.  So
    [(and #f (/ 1 0))] is false and [(or #t (/ 1 0))] is true, although the
    division raises when it is evaluated. *)
Theorem and_or_short_circuit fuel env σ :
  evaluate (S fuel) (and_form []) env σ = Return (VBool true) σ
  ∧ evaluate (S fuel) (or_form []) env σ = Return (VBool false) σ
  ∧ (∀ a rest σ', evaluate fuel a env σ = Return (VBool false) σ' →
       evaluate (S fuel) (and_form (a :: rest)) env σ = Return (VBool false) σ')
  ∧ (∀ a v σ', evaluate fuel a env σ = Return v σ' → v ≠ VBool false →
       evaluate (S fuel) (and_form [a]) env σ = Return v σ')
  ∧ (∀ a b rest v σ', evaluate fuel a env σ = Return v σ' → v ≠ VBool false →
       evaluate (S fuel) (and_form (a :: b :: rest)) env σ
       = evaluate (S fuel) (and_form (b :: rest)) env σ')
  ∧ (∀ a rest v σ', evaluate fuel a env σ = Return v σ' → v ≠ VBool false →
       evaluate (S fuel) (or_form (a :: rest)) env σ = Return v σ')
  ∧ (∀ a σ', evaluate fuel a env σ = Return (VBool false) σ' →
       evaluate (S fuel) (or_form [a]) env σ = Return (VBool false) σ')
  ∧ (∀ a b rest σ', evaluate fuel a env σ = Return (VBool false) σ' →
       evaluate (S fuel) (or_form (a :: b :: rest)) env σ
       = evaluate (S fuel) (or_form (b :: rest)) env σ')
  ∧ answer (evaluate 2 (and_form [EBool false; one_over_zero])
              global_env create_global_env) = Some (inr (VBool false))
  ∧ answer (evaluate 2 (or_form [EBool true; one_over_zero])
              global_env create_global_env) = Some (inr (VBool true))
  ∧ answer (evaluate 2 one_over_zero global_env create_global_env)
    = Some (inl ZeroDivisionError).
Proof.
  unfold and_form, or_form. rewrite !evaluate_and, !evaluate_or.
  split_and!; try reflexivity.
  - intros a rest σ' Ha. rewrite evaluate_and. unfold _and. simpl.
    by rewrite (bind_Return _ _ _ _ _ Ha).
  - intros a v σ' Ha Hv. rewrite evaluate_and. unfold _and. simpl.
    rewrite (bind_Return _ _ _ _ _ Ha). by apply is_False_false in Hv as ->.
  - intros a b rest v σ' Ha Hv. rewrite !evaluate_and. unfold _and. simpl.
    rewrite (bind_Return _ _ _ _ _ Ha). by apply is_False_false in Hv as ->.
  - intros a rest v σ' Ha Hv. rewrite evaluate_or. unfold _or. simpl.
    rewrite (bind_Return _ _ _ _ _ Ha). by apply is_False_false in Hv as ->.
  - intros a σ' Ha. rewrite evaluate_or. unfold _or. simpl.
    by rewrite (bind_Return _ _ _ _ _ Ha).
  - intros a b rest σ' Ha. rewrite !evaluate_or. unfold _or. simpl.
    by rewrite (bind_Return _ _ _ _ _ Ha).
Qed.

(** [(and #f (/ 1 0))] stops at its first operand. *)
Lemma and_or_short_circuit_witness :
  evaluate 2 (and_form [EBool false; one_over_zero]) global_env create_global_env
  = Return (VBool false) create_global_env.
Proof.
  apply (proj1 (proj2 (proj2 (and_or_short_circuit 1 global_env create_global_env)))).
  reflexivity.
Defined.

(** ** Special forms and bindings of their names *)

(** C10: a list whose head is the symbol [define], [if], [lambda], [and] or
    [or] goes to the handler of that special form in every environment and
    store, whatever is bound there: the head is not looked up and nothing
    is applied.  So [(if #f 1 2)] answers 2 wherever [if] is bound, to
    whatever value.  [(define if +)] binds [if] to the addition in the
    global environment; there [(if #f 1 2)] still answers 2, where the
    addition of the three operands answers 3. *)
Theorem special_forms_not_shadowed fuel rest env σ :
  evaluate (S fuel) (EList (ESym "define" :: rest)) env σ
  = _define (evaluate fuel) (ESym "define" :: rest) env σ
  ∧ evaluate (S fuel) (EList (ESym "if" :: rest)) env σ
    = _if (evaluate fuel) (ESym "if" :: rest) env σ
  ∧ evaluate (S fuel) (EList (ESym "lambda" :: rest)) env σ
    = _lambda (evaluate fuel) (ESym "lambda" :: rest) env σ
  ∧ evaluate (S fuel) (EList (ESym "and" :: rest)) env σ
    = _and (evaluate fuel) (ESym "and" :: rest) env σ
  ∧ evaluate (S fuel) (EList (ESym "or" :: rest)) env σ
    = _or (evaluate fuel) (ESym "or" :: rest) env σ
  ∧ (∀ f v, binds (envs σ) f "if" v →
            evaluate (S (S fuel)) (if_form (EBool false) (num 1) (num 2)) env σ
            = Return (VFloat (PyFloat.of_Z 2)) σ)
  ∧ evaluate 2 define_if_plus global_env create_global_env
    = Return VNone if_bound_store
  ∧ binds (envs if_bound_store) global_env "if" (VBuiltin BAdd)
  ∧ answer (evaluate 2 (EList [ESym "+"; EBool false; num 1; num 2])
              global_env if_bound_store)
    = Some (inr (VFloat (PyFloat.of_Z 3))).
Proof.
  rewrite evaluate_define, evaluate_if, evaluate_lambda, evaluate_and, evaluate_or.
  split_and!; try reflexivity.
  eexists. split; [reflexivity|]. by vm_compute.
Qed.

(** In the store left by [(define if +)]. *)
Lemma special_forms_not_shadowed_witness :
  evaluate 2 (if_form (EBool false) (num 1) (num 2)) global_env if_bound_store
  = Return (VFloat (PyFloat.of_Z 2)) if_bound_store.
Proof.
  refine (proj1 (proj2 (proj2 (proj2 (proj2 (proj2
    (special_forms_not_shadowed 0 [] global_env if_bound_store))))))
    global_env (VBuiltin BAdd) _).
  eexists. split; [reflexivity|]. vm_compute. reflexivity.
Defined.

(** ** Closures and the environment they capture *)

(** Answers of a run stay when fuel is added. *)
Lemma run_mono fuel fuel' forms :
  (fuel ≤ fuel')%nat →
  ∀ σ, Forall is_Some (run fuel forms σ) →
       run fuel' forms σ = run fuel forms σ.
Proof.
  intros Hle. induction forms as [|form forms IH]; intros σ; [done|].
  simpl. intros [Ha Hrest]%Forall_cons.
  rewrite (evaluate_mono _ _ Hle form global_env σ)
    by (intros Ho; rewrite Ho in Ha; by destruct Ha).
  f_equal. destruct (evaluate fuel form global_env σ); try done.
  - by apply IH.
  - destruct (caught x); [by apply IH|done].
Qed.

(** A call of a parameterless closure whose body is the name [x], after
    [x] was set in the environment the closure holds. *)
Lemma call_reads_captured fuel id env x v h n :
  wf_envs h → is_Some (h !! env) →
  let h' := Env.setitem h env x v in
  call (evaluate (S fuel)) (VClosure id [] (ESym x) env) [] (Store h' n)
  = Return v (Store (h' ++ [Env.Build ∅ (Some env)]) n).
Proof.
  intros Hwf [E HE] h'. simpl.
  assert (Hlen : (env < length h')%nat).
  { unfold h', Env.setitem. rewrite length_alter. by eapply lookup_lt_Some. }
  assert (Hwf' : wf_envs (h' ++ [Env.Build ∅ (Some env)])).
  { apply wf_envs_new; [by apply wf_envs_setitem|done]. }
  unfold mbind, M_bind, env_new, env_get, Env.getitem, dict_zip. simpl.
  rewrite find_unfold by done. rewrite lookup_app_r, Nat.sub_diag by done.
  assert (Hh' : h' !! env
    = Some (Env.Build (<[x := v]> (Env.bindings E)) (Env.parent E))).
  { unfold h'. by rewrite setitem_lookup, decide_True, HE. }
  simpl. rewrite lookup_empty, find_unfold by done.
  rewrite lookup_app_l, Hh' by done. simpl. rewrite lookup_insert_eq.
  rewrite lookup_app_l, Hh' by done. simpl. by rewrite lookup_insert_eq.
Qed.

(** C1: a closure holds the location of the environment [lambda] was
    evaluated in, and no copy of it: creating the closure leaves every
    environment as it was, and a call reads the captured environment as it
    is at the time of the call, so it sees a later [define].  After
    [(define x 1) (define f (lambda () x)) (define x 2)] the call [(f)]
    returns 2, and [fact], defined by a [lambda] that names [fact], returns
    120 on 5. *)
Theorem closures_capture_by_reference :
  (∀ fuel env σ params ps body,
     symbols params = Some ps →
     evaluate (S fuel) (EList [ESym "lambda"; EList params; body]) env σ
     = Return (VClosure (next_id σ) ps body env) (Store (envs σ) (S (next_id σ))))
  ∧ (∀ fuel id env x v h n,
       wf_envs h → is_Some (h !! env) →
       call (evaluate (S fuel)) (VClosure id [] (ESym x) env) []
         (Store (Env.setitem h env x v) n)
       = Return v (Store (Env.setitem h env x v ++ [Env.Build ∅ (Some env)]) n))
  ∧ (∀ k, run (3 + k) aliasing_program create_global_env
          = [ Some (inr VNone); Some (inr VNone); Some (inr VNone);
              Some (inr (VFloat (PyFloat.of_Z 2))) ])
  ∧ (∀ k, run (18 + k) factorial_program create_global_env
          = [ Some (inr VNone); Some (inr (VFloat (PyFloat.of_Z 120))) ]).
Proof.
  split_and!.
  - intros fuel env σ params ps body Hps. rewrite evaluate_lambda.
    unfold _lambda. by rewrite Hps.
  - intros. by apply call_reads_captured.
  - intros k. rewrite (run_mono 3); [by vm_compute|lia|].
    vm_compute. repeat constructor; by eexists.
  - intros k. rewrite (run_mono 18); [by vm_compute|lia|].
    vm_compute. repeat constructor; by eexists.
Qed.

(** The second part at the global environment, with [x] set to 2. *)
Lemma closures_capture_by_reference_witness :
  call (evaluate 1) (VClosure 0 [] (ESym "x") global_env) []
    (Store (Env.setitem (envs create_global_env) global_env "x"
              (VFloat (PyFloat.of_Z 2))) 1)
  = Return (VFloat (PyFloat.of_Z 2))
      (Store (Env.setitem (envs create_global_env) global_env "x"
                (VFloat (PyFloat.of_Z 2)) ++ [Env.Build ∅ (Some global_env)]) 1).
Proof.
  apply (proj1 (proj2 closures_capture_by_reference)).
  - exact I.
  - eexists. reflexivity.
Defined.

(** A chain depends on the parent links only. *)
Lemma chain_same_parents (h h' : list Env.t) e c :
  (∀ g E, h !! g = Some E →
          ∃ E', h' !! g = Some E' ∧ Env.parent E' = Env.parent E) →
  chain h e c → chain h' e c.
Proof.
  intros Hsame. induction 1 as [e E HE Hp|e E p c HE Hp Hc IH];
    destruct (Hsame _ _ HE) as (E' & HE' & Hp').
  - eapply chain_root; [done|by rewrite Hp'].
  - eapply chain_link; [done|by rewrite Hp'|done].
Qed.

Lemma setitem_parent h e key v g E :
  h !! g = Some E →
  ∃ E', Env.setitem h e key v !! g = Some E' ∧ Env.parent E' = Env.parent E.
Proof.
  intros HE. rewrite setitem_lookup. case_decide; [|eauto].
  subst. rewrite HE. simpl. eauto.
Qed.

(** ** Lookup and definition *)

(** C9: on every store the evaluator can reach, for every environment,
    its chain and every symbol: the lookup finds the first environment of
    the chain, innermost first, that binds the symbol, and returns the value
    bound there; a symbol bound nowhere in the chain fails with NameError;
    and a [define] changes the dictionary of the current environment only,
    every other environment of the store (its parents among them) staying
    as the evaluation of the defined expression left it. *)
Theorem lookup_and_define σ env c x :
  store_ok σ → chain (envs σ) env c →
  (∀ pre f post v fuel,
     c = pre ++ f :: post →
     Forall (λ g, unbound (envs σ) g x) pre → binds (envs σ) f x v →
     Env.find (envs σ) env x = Some (inr f)
     ∧ evaluate (S fuel) (ESym x) env σ = Return v σ)
  ∧ (Forall (λ g, unbound (envs σ) g x) c →
     ∀ fuel, evaluate (S fuel) (ESym x) env σ = Raise NameError σ)
  ∧ (∀ fuel rhs v σ',
       evaluate fuel rhs env σ = Return v σ' →
       let h := Env.setitem (envs σ') env x v in
       evaluate (S fuel) (EList [ESym "define"; ESym x; rhs]) env σ
       = Return VNone (Store h (next_id σ'))
       ∧ binds h env x v
       ∧ (∀ g, g ≠ env → h !! g = envs σ' !! g)
       ∧ chain h env c).
Proof.
  intros Hok Hc. pose proof (proj1 Hok) as Hwf. split_and!.
  - intros pre f post v fuel Heq Hpre Hb.
    destruct (find_first _ _ _ x Hwf Hc _ _ _ _ Heq Hpre Hb) as [Hf Hg].
    split; [done|]. rewrite evaluate_S_eq. unfold env_get. by rewrite Hg.
  - intros Hall fuel. rewrite evaluate_S_eq. unfold env_get, Env.getitem.
    by rewrite (find_absent _ _ _ x Hwf Hc Hall).
  - intros fuel rhs v σ' Hrhs h.
    assert (Henv : (env < length (envs σ))%nat).
    { destruct Hc; by eapply lookup_lt_Some. }
    pose proof (evaluate_safe fuel rhs env σ Hok Henv) as Hsafe.
    unfold safe in Hsafe. rewrite Hrhs in Hsafe.
    destruct Hsafe as (Hok' & Hext & _).
    destruct (lookup_lt_is_Some_2 (envs σ') env) as [E' HE'];
      [by eapply extends_lt|].
    split_and!.
    + rewrite evaluate_define. unfold _define.
      rewrite (bind_Return _ _ _ _ _ Hrhs).
      unfold mbind, M_bind, env_set. by rewrite HE'.
    + eexists. unfold h. rewrite setitem_lookup, decide_True, HE' by done.
      split; [done|]. simpl. by rewrite lookup_insert_eq.
    + intros g Hg. unfold h. by rewrite setitem_lookup, decide_False.
    + eapply chain_same_parents; [|exact Hc]. intros e E HE.
      destruct (Hext _ _ HE) as (E1 & HE1 & <-).
      by apply setitem_parent.
Qed.

(** In [shadowing_store] the inner [x] is the one found. *)
Lemma lookup_and_define_witness :
  evaluate 1 (ESym "x") 1%nat shadowing_store = Return (VInt 99) shadowing_store.
Proof.
  refine (proj2 (proj1 (lookup_and_define shadowing_store 1%nat
                          [1%nat; 0%nat] "x" _ _)
                   [] 1%nat [0%nat] (VInt 99) 0%nat _ _ _)).
  - apply (bool_decide_unpack _). vm_compute. exact I.
  - eapply chain_link; [reflexivity|reflexivity|].
    eapply chain_root; reflexivity.
  - reflexivity.
  - constructor.
  - eexists. split; reflexivity.
Defined.

(** ** Calling a closure *)

Lemma dict_zip_fold_absent params args (d : gmap string value) p :
  p ∉ take (length args) params →
  foldl (λ d kv, <[kv.1 := kv.2]> d) d (zip params args) !! p = d !! p.
Proof.
  revert args d. induction params as [|q params IH];
    intros [|a args] d Hp; simpl in *; try done.
  rewrite not_elem_of_cons in Hp. destruct Hp as [Hq Hp].
  rewrite IH by done. by rewrite lookup_insert_ne.
Qed.

Lemma dict_zip_fold_last params args (d : gmap string value) i p v :
  params !! i = Some p → args !! i = Some v →
  (∀ j, (i < j)%nat → (j < length args)%nat → params !! j ≠ Some p) →
  foldl (λ d kv, <[kv.1 := kv.2]> d) d (zip params args) !! p = Some v.
Proof.
  revert args d i. induction params as [|q params IH];
    intros [|a args] d [|i] Hp Hv Hlast; simplify_eq/=.
  - rewrite dict_zip_fold_absent, lookup_insert_eq; [done|].
    intros (j & Hj)%list_elem_of_lookup.
    apply lookup_take_Some in Hj as [Hj Hjlt].
    apply (Hlast (S j)); [lia|lia|done].
  - eapply IH; [done..|]. intros j ??. apply (Hlast (S j)); lia.
Qed.

(** C2, as stated, fails: a lambda of two parameters called with one
    argument returns a value, and so does a lambda of one parameter called
    with two; no exception is raised. *)
Lemma call_arity_counterexample :
  answer (evaluate 3 two_params_one_arg global_env create_global_env)
  = Some (inr (VFloat (PyFloat.of_Z 1)))
  ∧ answer (evaluate 3 one_param_two_args global_env create_global_env)
    = Some (inr (VFloat (PyFloat.of_Z 1))).
Proof. split; by vm_compute. Qed.

(** C2, amended: a closure of [n] parameters called with [m] arguments is
    not checked for arity.  Its body is evaluated in a new child of the
    captured environment, in which a parameter is bound to the argument at
    its position when there is one (the last position counting for a name
    that occurs twice) and the parameters beyond the arguments are not
    bound; the arguments beyond the parameters are dropped.  So a lambda of
    two parameters called with one argument runs with the first parameter
    bound only. *)
Theorem call_pairs_by_position ev id params body cenv args σ :
  call ev (VClosure id params body cenv) args σ
  = ev body (length (envs σ))
      (Store (envs σ ++ [Env.Build (dict_zip params args) (Some cenv)]) (next_id σ))
  ∧ (∀ i p v,
       params !! i = Some p → args !! i = Some v →
       (∀ j, (i < j)%nat → (j < length args)%nat → params !! j ≠ Some p) →
       dict_zip params args !! p = Some v)
  ∧ (∀ p, p ∉ take (length args) params → dict_zip params args !! p = None)
  ∧ dict_zip ["x"; "y"] [VFloat (PyFloat.of_Z 1)]
    = {["x" := VFloat (PyFloat.of_Z 1)]}.
Proof.
  split_and!.
  - reflexivity.
  - intros i p v. apply dict_zip_fold_last.
  - intros p Hp. unfold dict_zip. by rewrite dict_zip_fold_absent.
  - reflexivity.
Qed.

(** The second parameter of two, with one argument, is left unbound. *)
Lemma call_pairs_by_position_witness :
  dict_zip ["x"; "y"] [VFloat (PyFloat.of_Z 1)] !! "y" = None.
Proof.
  apply (proj1 (proj2 (proj2 (call_pairs_by_position
    (evaluate 0) 0 ["x"; "y"] (ESym "x") global_env
    [VFloat (PyFloat.of_Z 1)] create_global_env)))).
  simpl. apply (bool_decide_unpack _). vm_compute. exact I.
Defined.

(** ** Builtins *)

(** C3, as stated, fails: [(/ 1 0)] raises ZeroDivisionError; it returns
    neither an infinity nor a NaN, and the drivers do not catch the
    exception, so the run ends there. *)
Lemma division_by_zero_counterexample :
  answer (evaluate 2 one_over_zero global_env create_global_env)
  = Some (inl ZeroDivisionError)
  ∧ run 2 [one_over_zero; num 1] create_global_env
    = [Some (inl ZeroDivisionError)].
Proof. split; by vm_compute. Qed.

(** C3, amended: the builtin [/] applied to two Numbers of which the second
    is a zero, of either sign, raises the host's ZeroDivisionError, whatever
    the first is (an infinity and a NaN included); [/] is the global
    binding of the division. *)
Theorem division_by_zero_raises x s :
  call_builtin BDiv [VFloat x; VFloat (S754_zero s)] = inl ZeroDivisionError
  ∧ global_bindings !! "/" = Some (VBuiltin BDiv).
Proof. split; reflexivity. Qed.

(** C4: the code does otherwise.  [not] negates the host's truthiness, for
    which the number zero and the no-value are false as well: [(not 0)]
    returns true, whereas [(if 0 1 2)] takes 0 for true. *)
Theorem not_negates_host_truthiness :
  (∀ v, call_builtin BNot [v] = inr (VBool (negb (Py.truthy v))))
  ∧ global_bindings !! "not" = Some (VBuiltin BNot)
  ∧ answer (evaluate 2 not_zero global_env create_global_env)
    = Some (inr (VBool true))
  ∧ answer (evaluate 2 (EList [ESym "not"; EBool false]) global_env
              create_global_env)
    = Some (inr (VBool true))
  ∧ answer (evaluate 2 (if_form (num 0) (num 1) (num 2)) global_env
              create_global_env)
    = Some (inr (VFloat (PyFloat.of_Z 1))).
Proof. split_and!; by vm_compute. Qed.
















(** ** The parser and the empty group *)

(** C6, as stated, fails: the tokens of [( )] parse to the empty list, with
    no token left over; it is [evaluate] that rejects the empty list. *)
Lemma parse_empty_group_counterexample :
  parse float_of_digits ["("; ")"] = Some (inr (EList [], []))
  ∧ answer (evaluate 1 (EList []) global_env create_global_env)
    = Some (inl SyntaxError).
Proof. split; reflexivity. Qed.

(** C6, amended: for every token sequence, [parse] returns an expression
    exactly when the sequence starts with the spelling of one, an atom or a
    balanced parenthesis group around the spellings of its elements, and
    then it has consumed that spelling and nothing more; in every other
    case (tokens run out inside a group, a closing parenthesis comes first,
    there are no tokens) it fails with SyntaxError.  The empty group [( )]
    is a spelling: it parses to the empty list. *)
Theorem parse_balanced_groups py_float tokens :
  (∀ e rest,
     parse py_float tokens = Some (inr (e, rest)) ↔
     ∃ used, tokens = used ++ rest ∧ spells py_float used e)
  ∧ ((∀ used rest e, tokens = used ++ rest → ¬ spells py_float used e) →
     parse py_float tokens = Some (inl SyntaxError))
  ∧ (∀ rest, parse py_float ("(" :: ")" :: rest) = Some (inr (EList [], rest)))
  ∧ spells py_float ["("; ")"] (EList []).
Proof.
  split_and!.
  - intros e rest. apply parse_spec.
  - intros Hnone. pose proof (parse_total py_float tokens) as Ht.
    destruct (parse py_float tokens) as [[x|[e rest]]|] eqn:Hp; [by subst|..|done].
    apply parse_spec in Hp as (used & -> & Hs). by destruct (Hnone used rest e).
  - intros rest. apply parse_spec. exists ["("; ")"]. split; [done|].
    apply (spells_group py_float [] []). constructor.
  - apply (spells_group py_float [] []). constructor.
Qed.

(** A group that is never closed is a SyntaxError. *)
Lemma parse_balanced_groups_witness :
  parse float_of_digits ["("; "f"; "1"] = Some (inl SyntaxError).
Proof.
  apply (proj1 (proj2 (parse_balanced_groups float_of_digits ["("; "f"; "1"]))).
  intros used rest e Heq Hs.
  pose proof (proj2 (parse_spec float_of_digits ["("; "f"; "1"] e rest)
                (ex_intro _ used (conj Heq Hs))) as Hp.
  vm_compute in Hp. discriminate Hp.
Defined.

(** * Further properties *)

(** ** [Env]: writing and reading *)

Lemma setitem_length h e key v : length (Env.setitem h e key v) = length h.
Proof. unfold Env.setitem. apply length_alter. Qed.

Lemma setitem_lookup_same h e key v E :
  h !! e = Some E →
  Env.setitem h e key v !! e
  = Some (Env.Build (<[key := v]> (Env.bindings E)) (Env.parent E)).
Proof. intros HE. by rewrite setitem_lookup, decide_True, HE. Qed.

(** X1: after [env[key] = v], [env[key]] is [v], whether or not a parent
    binds [key] and whatever [env] bound before. *)
Theorem getitem_after_setitem h e key v :
  wf_envs h → is_Some (h !! e) →
  Env.getitem (Env.setitem h e key v) e key = Some (inr v).
Proof.
  intros Hwf [E HE]. unfold Env.getitem.
  rewrite find_unfold by (by apply wf_envs_setitem).
  rewrite (setitem_lookup_same _ _ _ _ _ HE). simpl.
  rewrite lookup_insert_eq, (setitem_lookup_same _ _ _ _ _ HE). simpl.
  by rewrite lookup_insert_eq.
Qed.

Lemma getitem_after_setitem_witness :
  Env.getitem (Env.setitem (envs shadowing_store) 1%nat "x" VNone) 1%nat "x"
  = Some (inr VNone).
Proof.
  apply getitem_after_setitem.
  - exact I.
  - eexists. reflexivity.
Defined.

Lemma find_from_setitem_other n h e key v e' key' :
  key ≠ key' →
  Env.find_from n (Env.setitem h e key v) e' key' = Env.find_from n h e' key'.
Proof.
  intros Hne. revert e'. induction n as [|n IH]; intros e'; [done|]. simpl.
  rewrite setitem_lookup. case_decide as He; [subst e'|].
  - destruct (h !! e) as [E|]; simpl; [|done].
    rewrite lookup_insert_ne by done.
    destruct (Env.bindings E !! key'); [done|].
    destruct (Env.parent E); [apply IH|done].
  - destruct (h !! e') as [E|]; [|done].
    destruct (Env.bindings E !! key'); [done|].
    destruct (Env.parent E); [apply IH|done].
Qed.

(** X2: [env[key] = v] leaves the lookup of every other name as it was, from
    every environment of the store. *)
Theorem getitem_setitem_other h e key v e' key' :
  key ≠ key' →
  Env.getitem (Env.setitem h e key v) e' key' = Env.getitem h e' key'.
Proof.
  intros Hne. unfold Env.getitem, Env.find.
  rewrite setitem_length, find_from_setitem_other by done.
  destruct (Env.find_from _ h e' key') as [[x|f]|]; try done.
  rewrite setitem_lookup. case_decide; [subst f|done].
  destruct (h !! e) as [E|]; simpl; [|done]. by rewrite lookup_insert_ne.
Qed.

Lemma getitem_setitem_other_witness :
  Env.getitem (Env.setitem (envs shadowing_store) 1%nat "y" VNone) 1%nat "x"
  = Env.getitem (envs shadowing_store) 1%nat "x".
Proof. apply getitem_setitem_other. discriminate. Defined.

(** X3: [key in env] is true exactly when [env[key]] returns a value and
    false exactly when it raises NameError; it never raises itself. *)
Theorem contains_iff_getitem h e key :
  wf_envs h → (e < length h)%nat →
  (Env.contains h e key = Some true ↔ ∃ v, Env.getitem h e key = Some (inr v))
  ∧ (Env.contains h e key = Some false ↔
     Env.getitem h e key = Some (inl NameError))
  ∧ Env.contains h e key ≠ None.
Proof.
  intros Hwf He. unfold Env.contains, Env.getitem.
  destruct (find_defined h key e Hwf He) as [->|(f & v & -> & E & HE & Hv)].
  - split_and!; [split; [done|by intros [??]]|done|done].
  - rewrite HE. simpl. rewrite Hv. simpl.
    split_and!; [split; eauto|split; done|done].
Qed.

Lemma contains_iff_getitem_witness :
  Env.contains (envs shadowing_store) 1%nat "+" = Some true.
Proof.
  apply (proj1 (contains_iff_getitem (envs shadowing_store) 1%nat "+" I
                  ltac:(simpl; lia))).
  eexists. vm_compute. reflexivity.
Defined.

(** X4: a write into an environment is read from every environment below
    it whose chain reaches it before any environment that binds the name. *)
Theorem getitem_sees_outer_setitem h e c key v :
  wf_envs h → chain h e c →
  ∀ pre f post,
    c = pre ++ f :: post → Forall (λ g, unbound h g key) pre →
    Env.getitem (Env.setitem h f key v) e key = Some (inr v).
Proof.
  intros Hwf Hc pre f post Heq Hpre.
  pose proof (wf_envs_setitem h f key v Hwf) as Hwf'.
  assert (Hf : is_Some (h !! f)).
  { clear Hpre. revert pre Heq.
    induction Hc as [e E HE Hp|e E p c HE Hp Hc IH]; intros [|g pre] Heq;
      simplify_eq/=; eauto.
    by destruct pre. }
  destruct Hf as [F HF].
  assert (Hfind : Env.find (Env.setitem h f key v) e key = Some (inr f)).
  { revert pre Heq Hpre.
    induction Hc as [e E HE Hp|e E p c HE Hp Hc IH]; intros pre Heq Hpre;
      rewrite find_unfold by done.
    - destruct pre as [|g [|??]]; simplify_eq/=.
      rewrite (setitem_lookup_same _ _ _ _ _ HE). simpl.
      by rewrite lookup_insert_eq.
    - destruct pre as [|g pre]; simplify_eq/=.
      + rewrite (setitem_lookup_same _ _ _ _ _ HE). simpl.
        by rewrite lookup_insert_eq.
      + apply Forall_cons in Hpre as [(E' & HE' & Hn) Hpre]. simplify_eq.
        rewrite setitem_lookup. case_decide as Hg.
        * subst g. rewrite HE. simpl. by rewrite lookup_insert_eq.
        * rewrite HE, Hn, Hp. by eapply IH. }
  unfold Env.getitem. rewrite Hfind, (setitem_lookup_same _ _ _ _ _ HF).
  simpl. by rewrite lookup_insert_eq.
Qed.

Lemma getitem_sees_outer_setitem_witness :
  Env.getitem (Env.setitem (envs shadowing_store) global_env "y" (VInt 7))
    1%nat "y"
  = Some (inr (VInt 7)).
Proof.
  apply (getitem_sees_outer_setitem (envs shadowing_store) 1%nat
           [1%nat; 0%nat] "y" (VInt 7) I) with (pre := [1%nat]) (post := []).
  - eapply chain_link; [reflexivity|reflexivity|].
    eapply chain_root; reflexivity.
  - reflexivity.
  - constructor; [|constructor]. eexists. split; reflexivity.
Defined.

(** ** [_define] and [_lambda] *)

(** X5: when the defined expression returns [v], [(define x expr)] returns
    the no-value and a lookup of [x] in the same environment then returns
    [v], whatever [x] was bound to before, there or in a parent. *)
Theorem define_then_lookup fuel env x rhs σ v σ1 :
  store_ok σ → (env < length (envs σ))%nat →
  evaluate fuel rhs env σ = Return v σ1 →
  ∃ σ', evaluate (S fuel) (EList [ESym "define"; ESym x; rhs]) env σ
        = Return VNone σ'
        ∧ ∀ k, evaluate (S k) (ESym x) env σ' = Return v σ'.
Proof.
  intros Hok Henv Hrhs.
  pose proof (evaluate_safe fuel rhs env σ Hok Henv) as Hsafe.
  unfold safe in Hsafe. rewrite Hrhs in Hsafe. destruct Hsafe as (Hok1 & Hext & _).
  destruct (lookup_lt_is_Some_2 (envs σ1) env) as [E HE];
    [by eapply extends_lt|].
  eexists. split.
  - rewrite evaluate_define. unfold _define.
    rewrite (bind_Return _ _ _ _ _ Hrhs).
    unfold mbind, M_bind, env_set. by rewrite HE.
  - intros k. rewrite evaluate_S_eq. unfold env_get. simpl.
    rewrite getitem_after_setitem; [done|apply Hok1|by eexists].
Qed.

Lemma define_then_lookup_witness :
  ∃ σ', evaluate 2 (EList [ESym "define"; ESym "x"; num 1]) global_env
          create_global_env = Return VNone σ'
        ∧ ∀ k, evaluate (S k) (ESym "x") global_env σ'
               = Return (VFloat (PyFloat.of_Z 1)) σ'.
Proof.
  apply (define_then_lookup 1 global_env "x" (num 1) create_global_env
           (VFloat (PyFloat.of_Z 1)) create_global_env).
  - apply (bool_decide_unpack _). vm_compute. exact I.
  - unfold global_env. simpl. lia.
  - reflexivity.
Defined.

(** X6: a [define] form that is not [(define <symbol> <expr>)], for one of
    any other length or with anything but a symbol in second place, such as
    [(define (f x) x)], fails with SyntaxError; nothing is evaluated and
    the store stays as it was. *)
Theorem define_malformed fuel rest env σ :
  (∀ var value, rest ≠ [ESym var; value]) →
  evaluate (S fuel) (EList (ESym "define" :: rest)) env σ = Raise SyntaxError σ.
Proof.
  intros Hshape. rewrite evaluate_define. unfold _define.
  destruct rest as [|a [|b [|??]]]; try reflexivity.
  - by destruct a.
  - destruct a as [x|c|var|l];
      [reflexivity|reflexivity|by destruct (Hshape var b)|reflexivity].
  - by destruct a.
Qed.

Lemma define_malformed_witness :
  evaluate 1 (EList [ESym "define"; EList [ESym "f"; ESym "x"]; ESym "x"])
    global_env create_global_env
  = Raise SyntaxError create_global_env.
Proof. apply define_malformed. intros var value. discriminate. Defined.

Lemma symbols_Some params ps :
  symbols params = Some ps ↔ params = ESym <$> ps.
Proof.
  revert ps. induction params as [|p params IH]; intros ps; simpl.
  - split; [by intros [= <-]|by destruct ps].
  - destruct p as [| |s|]; try (split; [done|by destruct ps]).
    destruct (symbols params) as [ps'|] eqn:Hs; simpl.
    + split.
      * intros [= <-]. simpl. f_equal. by apply IH.
      * destruct ps as [|q ps]; [done|]. intros [= -> Hps]. simpl.
        apply IH in Hps. by simplify_eq.
    + split; [done|]. destruct ps as [|q ps]; [done|]. intros [= -> Hps].
      by apply IH in Hps.
Qed.

(** X7: a [lambda] form makes a closure exactly when it is
    [(lambda (<symbol>...) <body>)]; a form of another length, with a
    parameter list that is no list, or with a parameter that is no symbol
    fails with SyntaxError and leaves the store as it was.  The body is not
    looked at. *)
Theorem lambda_shape fuel rest env σ :
  (∀ ps body, rest = [EList (ESym <$> ps); body] →
     evaluate (S fuel) (EList (ESym "lambda" :: rest)) env σ
     = Return (VClosure (next_id σ) ps body env)
         (Store (envs σ) (S (next_id σ))))
  ∧ ((∀ ps body, rest ≠ [EList (ESym <$> ps); body]) →
     evaluate (S fuel) (EList (ESym "lambda" :: rest)) env σ
     = Raise SyntaxError σ).
Proof.
  rewrite evaluate_lambda. unfold _lambda. split.
  - intros ps body ->.
    by rewrite (proj2 (symbols_Some (ESym <$> ps) ps) eq_refl).
  - intros Hshape. destruct rest as [|a [|b [|??]]]; try reflexivity;
      destruct a as [x|c|s|params]; try reflexivity.
    destruct (symbols params) as [ps|] eqn:Hs; [|reflexivity].
    apply symbols_Some in Hs as ->. by destruct (Hshape ps b).
Qed.

Lemma lambda_shape_witness :
  evaluate 1 (EList [ESym "lambda"; EList [ESym "x"; num 1]; ESym "x"])
    global_env create_global_env
  = Raise SyntaxError create_global_env.
Proof.
  apply (proj2 (lambda_shape 0 [EList [ESym "x"; num 1]; ESym "x"]
                  global_env create_global_env)).
  intros [|p [|q [|??]]] body; discriminate.
Defined.

(** ** Procedure application in [evaluate] *)

Lemma ordinary_head_dispatch form :
  ordinary_head form →
  is_symbol form "define" = false ∧ special_form form = None.
Proof.
  intros Hform. destruct form as [x|b|s|l]; try done.
  specialize (Hform s eq_refl). unfold special_names in Hform.
  rewrite !not_elem_of_cons in Hform.
  destruct Hform as (Hd & Hi & Hl & Ha & Ho & _). split.
  - simpl. by apply bool_decide_eq_false_2.
  - simpl. unfold special_forms. apply not_elem_of_list_to_map_1. simpl.
    rewrite !not_elem_of_cons. split_and!; try done. apply not_elem_of_nil.
Qed.

Lemma evaluate_application fuel form rest env :
  ordinary_head form →
  evaluate (S fuel) (EList (form :: rest)) env
  = (proc ← evaluate fuel form env;
     if Py.callable proc then
       args ← eval_args (evaluate fuel) rest env;
       call (evaluate fuel) proc args
     else raise TypeError).
Proof.
  intros [Hd Hs]%ordinary_head_dispatch.
  by rewrite evaluate_S_eq, Hd, Hs.
Qed.

Lemma eval_args_in_turn ev env args σ vs σ' :
  in_turn ev env args σ vs σ' → eval_args ev args env σ = Return vs σ'.
Proof.
  induction 1 as [σ|a args σ v σ1 vs σ2 Ha _ IH]; [done|]. simpl.
  rewrite (bind_Return _ _ _ _ _ Ha). by rewrite (bind_Return _ _ _ _ _ IH).
Qed.

Lemma eval_args_raise ev env pre a post σ vs σ1 x σ2 :
  in_turn ev env pre σ vs σ1 → ev a env σ1 = Raise x σ2 →
  eval_args ev (pre ++ a :: post) env σ = Raise x σ2.
Proof.
  induction 1 as [σ|b args σ v σ1 vs σ3 Hb _ IH]; intros Ha; simpl.
  - by rewrite (bind_Raise _ _ _ _ _ Ha).
  - rewrite (bind_Return _ _ _ _ _ Hb). by rewrite (bind_Raise _ _ _ _ _ (IH Ha)).
Qed.

(** X8: when the head of a list, not a special form, evaluates to something
    that is no procedure (a number, a Boolean, the no-value), the list fails
    with TypeError in the store the head left: no operand is evaluated. *)
Theorem noncallable_head fuel form rest env σ v σ' :
  ordinary_head form →
  evaluate fuel form env σ = Return v σ' → Py.callable v = false →
  evaluate (S fuel) (EList (form :: rest)) env σ = Raise TypeError σ'.
Proof.
  intros Hform Hv Hc. rewrite evaluate_application by done.
  rewrite (bind_Return _ _ _ _ _ Hv). by rewrite Hc.
Qed.

(** [(1 (undefined))]: a TypeError, not the NameError of the operand. *)
Lemma noncallable_head_witness :
  evaluate 2 (EList [num 1; EList [ESym "undefined"]]) global_env
    create_global_env
  = Raise TypeError create_global_env.
Proof.
  apply (noncallable_head 1 (num 1) [EList [ESym "undefined"]] global_env
           create_global_env (VFloat (PyFloat.of_Z 1)) create_global_env).
  - intros s. discriminate.
  - reflexivity.
  - reflexivity.
Defined.

(** X9: the operands of an application are evaluated from left to right
    after the head, each in the store its predecessor left.  When all of
    them return, the procedure is called with their values in the store
    the last one left; when one raises, the application raises the same
    exception in the store that operand left: the operands after it are
    not evaluated and the procedure is not called. *)
Theorem operands_in_turn fuel form env σ proc σ0 :
  ordinary_head form →
  evaluate fuel form env σ = Return proc σ0 → Py.callable proc = true →
  (∀ args vs σ1,
     in_turn (evaluate fuel) env args σ0 vs σ1 →
     evaluate (S fuel) (EList (form :: args)) env σ
     = call (evaluate fuel) proc vs σ1)
  ∧ (∀ pre a post vs σ1 x σ2,
       in_turn (evaluate fuel) env pre σ0 vs σ1 →
       evaluate fuel a env σ1 = Raise x σ2 →
       evaluate (S fuel) (EList (form :: pre ++ a :: post)) env σ
       = Raise x σ2).
Proof.
  intros Hform Hproc Hc. split.
  - intros args vs σ1 Hargs. rewrite evaluate_application by done.
    rewrite (bind_Return _ _ _ _ _ Hproc). rewrite Hc.
    by rewrite (bind_Return _ _ _ _ _ (eval_args_in_turn _ _ _ _ _ _ Hargs)).
  - intros pre a post vs σ1 x σ2 Hpre Ha. rewrite evaluate_application by done.
    rewrite (bind_Return _ _ _ _ _ Hproc). rewrite Hc.
    by rewrite (bind_Raise _ _ _ _ _ (eval_args_raise _ _ _ _ _ _ _ _ _ _ Hpre Ha)).
Qed.

(** [(+ 1 undefined (/ 1 0))]: the NameError of the second operand, not the
    ZeroDivisionError of the third. *)
Lemma operands_in_turn_witness :
  evaluate 3 (EList [ESym "+"; num 1; ESym "undefined"; one_over_zero])
    global_env create_global_env
  = Raise NameError create_global_env.
Proof.
  assert (Hhead : ordinary_head (ESym "+")).
  { intros s [= <-]. apply (bool_decide_unpack _). vm_compute. exact I. }
  apply (proj2 (operands_in_turn 2 (ESym "+") global_env create_global_env
                  (VBuiltin BAdd) create_global_env Hhead eq_refl eq_refl)
           [num 1] (ESym "undefined") [one_over_zero]
           [VFloat (PyFloat.of_Z 1)] create_global_env NameError
           create_global_env).
  - eapply in_turn_cons; [reflexivity|apply in_turn_nil].
  - reflexivity.
Defined.

(** ** What [evaluate] keeps of the store *)

(** X10: from a store in which parent links lead to older environments and
    closures hold existing environments, in an existing environment,
    [evaluate] returns or raises in a store of that kind again, in which
    every earlier environment is still there with the parent it had; a
    value it returns holds an existing environment; and it never reaches a
    location without an environment. *)
Theorem evaluate_keeps_store_ok fuel e env σ :
  store_ok σ → (env < length (envs σ))%nat →
  match evaluate fuel e env σ with
  | Return v σ' =>
      store_ok σ' ∧ extends σ σ' ∧ value_ok (length (envs σ')) v
  | Raise _ σ' => store_ok σ' ∧ extends σ σ'
  | OutOfFuel => True
  | Dangling => False
  end.
Proof. apply evaluate_safe. Qed.

Lemma evaluate_keeps_store_ok_witness :
  ∃ v σ',
    evaluate 5 closure_over_call global_env create_global_env = Return v σ'
    ∧ v = VClosure 1 ["y"] (ESym "x") 1
    ∧ length (envs σ') = 2%nat
    ∧ store_ok σ' ∧ extends create_global_env σ'
    ∧ value_ok (length (envs σ')) v.
Proof.
  assert (store_ok create_global_env) as Hok
    by (apply (bool_decide_unpack _); vm_compute; exact I).
  assert (global_env < length (envs create_global_env))%nat as Hlt
    by (unfold global_env; simpl; lia).
  pose proof (evaluate_keeps_store_ok 5 closure_over_call global_env
                create_global_env Hok Hlt) as H.
  destruct (evaluate 5 closure_over_call global_env create_global_env)
    as [v σ'|x σ'| |] eqn:He; vm_compute in He; try discriminate He.
  exists v, σ'. injection He as <- <-.
  split; [reflexivity|]. split; [reflexivity|]. split; [reflexivity|].
  exact H.
Defined.

Section Relates.

Variable R : store → store → Prop.
Hypothesis R_refl : ∀ σ, R σ σ.
Hypothesis R_trans : ∀ σ1 σ2 σ3, R σ1 σ2 → R σ2 σ3 → R σ1 σ3.
Hypothesis R_set :
  ∀ σ e key v, R σ (Store (Env.setitem (envs σ) e key v) (next_id σ)).
Hypothesis R_new :
  ∀ σ b p, R σ (Store (envs σ ++ [Env.Build b (Some p)]) (next_id σ)).
Hypothesis R_id : ∀ σ, R σ (Store (envs σ) (S (next_id σ))).

Lemma relates_ret {A} (a : A) : relates R (mret a).
Proof. intros σ. apply R_refl. Qed.

Lemma relates_raise {A} x : relates R (raise (A:=A) x).
Proof. intros σ. apply R_refl. Qed.

Lemma relates_bind {A B} (m : M A) (k : A → M B) :
  relates R m → (∀ a, relates R (k a)) → relates R (m ≫= k).
Proof.
  intros Hm Hk σ. specialize (Hm σ). unfold mbind, M_bind.
  destruct (m σ) as [a σ1|x σ1| |]; try done.
  specialize (Hk a σ1). destruct (k a σ1); eauto.
Qed.

Lemma relates_env_get env key : relates R (env_get env key).
Proof.
  intros σ. unfold env_get.
  destruct (Env.getitem (envs σ) env key) as [[x|v]|]; simpl; auto.
Qed.

Lemma relates_env_set env key v : relates R (env_set env key v).
Proof. intros σ. unfold env_set. destruct (envs σ !! env); auto. Qed.

Variable ev : evaluator.
Hypothesis Hev : ∀ e env, relates R (ev e env).

Lemma relates__define expr env : relates R (_define ev expr env).
Proof.
  unfold _define. repeat (case_match; try apply relates_raise).
  apply relates_bind; [apply Hev|intros v].
  apply relates_bind; [apply relates_env_set|intros _]. apply relates_ret.
Qed.

Lemma relates__if expr env : relates R (_if ev expr env).
Proof.
  unfold _if. repeat (case_match; try apply relates_raise).
  apply relates_bind; [apply Hev|intros v]. destruct (Py.is_False v); apply Hev.
Qed.

Lemma relates__lambda expr env : relates R (_lambda ev expr env).
Proof.
  unfold _lambda. repeat (case_match; try apply relates_raise).
  apply relates_bind; [intros σ; apply R_id|intros id]. apply relates_ret.
Qed.

Lemma relates_and_loop args env val : relates R (and_loop ev args env val).
Proof.
  revert val. induction args as [|arg args IH]; intros val; simpl;
    [apply relates_ret|].
  apply relates_bind; [apply Hev|intros v].
  destruct (Py.is_False v); [apply relates_ret|apply IH].
Qed.

Lemma relates_or_loop args env val : relates R (or_loop ev args env val).
Proof.
  revert val. induction args as [|arg args IH]; intros val; simpl;
    [apply relates_ret|].
  apply relates_bind; [apply Hev|intros v].
  destruct (Py.is_False v); [apply IH|apply relates_ret].
Qed.

Lemma relates_eval_args args env : relates R (eval_args ev args env).
Proof.
  induction args as [|arg args IH]; simpl; [apply relates_ret|].
  apply relates_bind; [apply Hev|intros v].
  apply relates_bind; [apply IH|intros vs]. apply relates_ret.
Qed.

Lemma relates_call proc args : relates R (call ev proc args).
Proof.
  destruct proc; simpl; try apply relates_raise.
  - destruct (call_builtin b args); [apply relates_raise|apply relates_ret].
  - apply relates_bind; [intros σ; apply R_new|intros new]. apply Hev.
Qed.

Lemma relates_special_form form h expr env :
  special_form form = Some h → relates R (h ev expr env).
Proof.
  destruct form as [| |s|]; try done. intros Hs. special_form_cases Hs.
  - apply relates__if.
  - apply relates__lambda.
  - unfold _and. case_bool_decide; [apply relates_ret|apply relates_and_loop].
  - unfold _or. case_bool_decide; [apply relates_ret|apply relates_or_loop].
Qed.

End Relates.

(** A reflexive and transitive relation that every write of the
    interpreter respects holds between the store [evaluate] starts from
    and the one it ends in. *)
Lemma evaluate_relates (R : store → store → Prop) :
  (∀ σ, R σ σ) → (∀ σ1 σ2 σ3, R σ1 σ2 → R σ2 σ3 → R σ1 σ3) →
  (∀ σ e key v, R σ (Store (Env.setitem (envs σ) e key v) (next_id σ))) →
  (∀ σ b p, R σ (Store (envs σ ++ [Env.Build b (Some p)]) (next_id σ))) →
  (∀ σ, R σ (Store (envs σ) (S (next_id σ)))) →
  ∀ fuel e env, relates R (evaluate fuel e env).
Proof.
  intros Hrefl Htrans Hset Hnew Hid.
  induction fuel as [|fuel IH]; intros e env; [by intros σ|].
  rewrite evaluate_S_eq.
  destruct e as [x|b|s|[|form rest]];
    [by apply relates_ret|by apply relates_ret|by apply relates_env_get
    |by apply relates_raise|].
  destruct (is_symbol form "define"); [by apply relates__define|].
  destruct (special_form form) as [h|] eqn:Hh;
    [by eapply relates_special_form|].
  apply relates_bind; [done|apply IH|intros proc].
  destruct (Py.callable proc); [|by apply relates_raise].
  apply relates_bind; [done|by apply relates_eval_args|intros args].
  by apply relates_call.
Qed.

(** X11: [evaluate] never unbinds a name and never drops an environment: a
    name bound in an environment before is bound in that environment
    after, whether the evaluation returns or raises. *)
Theorem evaluate_keeps_names fuel e env σ :
  match evaluate fuel e env σ with
  | Return _ σ' | Raise _ σ' => names_kept σ σ'
  | OutOfFuel | Dangling => True
  end.
Proof.
  apply (evaluate_relates names_kept); clear.
  - intros σ e E key HE Hk. eauto.
  - intros σ1 σ2 σ3 H12 H23 e E key HE Hk.
    destruct (H12 e E key HE Hk) as (E' & HE' & Hk'). eauto.
  - intros σ e key v g E k HE Hk. simpl. rewrite setitem_lookup.
    case_decide; [subst g|eauto]. rewrite HE. simpl. eexists. split; [done|].
    simpl. rewrite lookup_insert. case_decide; [by eexists|done].
  - intros σ b p e E key HE Hk. simpl. exists E. split; [|done].
    by apply lookup_app_l_Some.
  - intros σ e E key HE Hk. eauto.
Qed.

(** ** Builtins *)

Lemma float_compare_antisym x y :
  PyFloat.compare y x = CompOpp <$> PyFloat.compare x y.
Proof.
  destruct x as [sx|sx| |sx mx e1], y as [sy|sy| |sy my e2]; simpl;
    try done; try (by destruct sx); try (by destruct sy);
    try (by destruct sx, sy).
  rewrite (Z.compare_antisym e1 e2).
  destruct sx, sy; simpl; try done; destruct (e1 ?= e2); simpl; try done.
  - rewrite (Pos.compare_cont_antisym my mx Eq). simpl.
    by rewrite CompOpp_involutive.
  - by rewrite (Pos.compare_cont_antisym mx my Eq).
Qed.

Lemma num_compare_antisym a b :
  Py.num_compare b a = CompOpp <$> Py.num_compare a b.
Proof.
  destruct a as [x|x], b as [y|y]; simpl.
  - by rewrite (Z.compare_antisym x y).
  - done.
  - destruct (PyFloat.compare_Z y x); simpl; [|done].
    by rewrite CompOpp_involutive.
  - apply float_compare_antisym.
Qed.

Lemma order_converse test test' v w :
  (∀ c, test' (CompOpp c) = test c) →
  Py.order test' w v = Py.order test v w.
Proof.
  intros Htest. unfold Py.order.
  destruct (Py.as_num v) as [a|], (Py.as_num w) as [b|]; try done.
  rewrite (num_compare_antisym a b).
  destruct (Py.num_compare a b); simpl; [|done]. by rewrite Htest.
Qed.

(** X12: the comparisons agree with one another on all values, errors
    included: [(< a b)] is [(> b a)], [(<= a b)] is [(>= b a)], and
    [(= a b)] is [(= b a)]. *)
Theorem comparisons_converse v w :
  call_builtin BLt [v; w] = call_builtin BGt [w; v]
  ∧ call_builtin BLe [v; w] = call_builtin BGe [w; v]
  ∧ call_builtin BEq [v; w] = call_builtin BEq [w; v].
Proof.
  simpl. split_and!.
  - symmetry. apply order_converse. by intros [].
  - symmetry. apply order_converse. by intros [].
  - do 2 f_equal. unfold Py.eq.
    destruct (Py.as_num v) as [a|] eqn:Hv, (Py.as_num w) as [b|] eqn:Hw.
    + rewrite (num_compare_antisym a b).
      by destruct (Py.num_compare a b) as [[]|].
    + by destruct v, w.
    + by destruct v, w.
    + destruct v, w; simpl in *; try done; apply bool_decide_ext; naive_solver.
Qed.

Lemma add_zero_float x :
  Py.add (VInt 0) (VFloat x) = inr (VFloat (PyFloat.add (S754_zero false) x)).
Proof. reflexivity. Qed.

Lemma float_add_zero_l x :
  x ≠ S754_zero true → PyFloat.add (S754_zero false) x = x.
Proof. by destruct x as [[]| | |]. Qed.

(** X13: [+] on floats is the host's addition from the integer 0: on one
    operand it returns the operand, and on two their binary64 sum, but for
    negative zero, which the initial 0 turns positive: [(+ -0.0)] and
    [(+ -0.0 -0.0)] are [0.0]. *)
Theorem add_floats x y :
  (x ≠ S754_zero true → call_builtin BAdd [VFloat x] = inr (VFloat x))
  ∧ (¬ (x = S754_zero true ∧ y = S754_zero true) →
     call_builtin BAdd [VFloat x; VFloat y] = inr (VFloat (PyFloat.add x y)))
  ∧ call_builtin BAdd [VFloat (S754_zero true)] = inr (VFloat (S754_zero false))
  ∧ call_builtin BAdd [VFloat (S754_zero true); VFloat (S754_zero true)]
    = inr (VFloat (S754_zero false)).
Proof.
  split_and!; try reflexivity.
  - intros Hx.
    change (call_builtin BAdd [VFloat x]) with (Py.add (VInt 0) (VFloat x)).
    by rewrite add_zero_float, float_add_zero_l.
  - intros Hxy.
    change (call_builtin BAdd [VFloat x; VFloat y])
      with (Py.bind (Py.add (VInt 0) (VFloat x)) (λ s, Py.add s (VFloat y))).
    rewrite add_zero_float.
    destruct (decide (x = S754_zero true)) as [->|Hx].
    + destruct y as [[]| | |]; try done. by destruct Hxy.
    + by rewrite float_add_zero_l.
Qed.

Lemma add_floats_witness :
  call_builtin BAdd [VFloat (PyFloat.of_Z 1); VFloat (PyFloat.of_Z 2)]
  = inr (VFloat (PyFloat.add (PyFloat.of_Z 1) (PyFloat.of_Z 2))).
Proof.
  apply (proj1 (proj2 (add_floats (PyFloat.of_Z 1) (PyFloat.of_Z 2)))).
  intros [H _]. vm_compute in H. discriminate H.
Defined.

(** X14: [-] on floats negates one operand and subtracts the second from
    the first when there are two, with the binary64 result but for
    [(- -0.0 -0.0)], which is [-0.0] (the second operand goes through the
    sum from the integer 0 first). *)
Theorem sub_floats x y :
  call_builtin BSub [VFloat x] = inr (VFloat (PyFloat.opp x))
  ∧ (¬ (x = S754_zero true ∧ y = S754_zero true) →
     call_builtin BSub [VFloat x; VFloat y] = inr (VFloat (PyFloat.sub x y)))
  ∧ call_builtin BSub [VFloat (S754_zero true); VFloat (S754_zero true)]
    = inr (VFloat (S754_zero true)).
Proof.
  split_and!; try reflexivity.
  intros Hxy.
  change (call_builtin BSub [VFloat x; VFloat y])
    with (Py.bind (Py.add (VInt 0) (VFloat y)) (λ s, Py.sub (VFloat x) s)).
  rewrite add_zero_float.
  destruct (decide (y = S754_zero true)) as [->|Hy].
  - destruct x as [[]| | |]; try done. by destruct Hxy.
  - by rewrite float_add_zero_l.
Qed.

Lemma sub_floats_witness :
  call_builtin BSub [VFloat (PyFloat.of_Z 5); VFloat (PyFloat.of_Z 2)]
  = inr (VFloat (PyFloat.sub (PyFloat.of_Z 5) (PyFloat.of_Z 2))).
Proof.
  apply (proj1 (proj2 (sub_floats (PyFloat.of_Z 5) (PyFloat.of_Z 2)))).
  intros [H _]. vm_compute in H. discriminate H.
Defined.

(** ** The tokenizer *)

Lemma is_paren_spec c : is_paren c = true ↔ c = "("%char ∨ c = ")"%char.
Proof.
  unfold is_paren. rewrite orb_true_iff, !Ascii.eqb_eq. done.
Qed.

Lemma paren_not_space c : is_paren c = true → isspace c = false.
Proof. by intros [-> | ->]%is_paren_spec. Qed.

Lemma split_from_space word s :
  split_from word (String " "%char s) = flush word ++ split_from EmptyString s.
Proof. reflexivity. Qed.

Lemma split_from_cons word c s :
  split_from word (String c s)
  = if isspace c then flush word ++ split_from EmptyString s
    else split_from (word +:+ String c EmptyString) s.
Proof. reflexivity. Qed.

(** [tokenize] is the one pass [scan]. *)
Lemma split_sub_parens word s : split_from word (sub_parens s) = scan word s.
Proof.
  revert word. induction s as [|c s IH]; intros word; [done|].
  cbn [sub_parens scan]. destruct (is_paren c) eqn:Hp.
  - rewrite (paren_not_space c Hp), split_from_space.
    rewrite split_from_cons, (paren_not_space c Hp), split_from_space.
    by rewrite IH.
  - rewrite split_from_cons. destruct (isspace c); by rewrite IH.
Qed.

Lemma tokenize_scan s : tokenize s = scan EmptyString s.
Proof. apply split_sub_parens. Qed.

Lemma chars_app s1 s2 : chars (s1 +:+ s2) = chars s1 ++ chars s2.
Proof. induction s1 as [|c s1 IH]; simpl; [done|by rewrite IH]. Qed.

Lemma chars_inj s1 s2 : chars s1 = chars s2 → s1 = s2.
Proof.
  revert s2. induction s1 as [|c s1 IH]; intros [|d s2]; simpl; try done.
  intros [= -> Hs]. f_equal. by apply IH.
Qed.

Lemma append_snoc word c s :
  (word +:+ String c EmptyString) +:+ s = word +:+ String c s.
Proof. apply chars_inj. rewrite !chars_app. simpl. by rewrite <-app_assoc. Qed.

Lemma append_empty_r s : s +:+ EmptyString = s.
Proof. apply chars_inj. by rewrite chars_app, app_nil_r. Qed.

Lemma flush_token word : plain word → Forall token (flush word).
Proof.
  intros Hw. destruct word as [|c word]; simpl; [constructor|].
  constructor; [|constructor]. right. right. by split.
Qed.

Lemma scan_tokens word s : plain word → Forall token (scan word s).
Proof.
  revert word. induction s as [|c s IH]; intros word Hw; simpl.
  - by apply flush_token.
  - destruct (isspace c) eqn:Hs.
    + apply Forall_app. split; [by apply flush_token|]. apply IH. constructor.
    + destruct (is_paren c) eqn:Hp.
      * apply Forall_app. split; [by apply flush_token|].
        constructor; [|apply IH; constructor].
        apply is_paren_spec in Hp as [-> | ->]; [by left|by right; left].
      * apply IH. unfold plain. rewrite chars_app. apply Forall_app.
        split; [done|]. simpl. by repeat constructor.
Qed.

(** X15: every token [tokenize] returns is a parenthesis on its own or a
    non-empty run of characters without whitespace and parentheses, for
    every text. *)
Theorem tokenize_tokens s : Forall token (tokenize s).
Proof. rewrite tokenize_scan. apply scan_tokens. constructor. Qed.

Lemma flush_chars word : mjoin (chars <$> flush word) = chars word.
Proof. destruct word; simpl; [done|by rewrite app_nil_r]. Qed.

Lemma scan_chars word s :
  mjoin (chars <$> scan word s)
  = chars word ++ filter (λ c, isspace c = false) (chars s).
Proof.
  revert word. induction s as [|c s IH]; intros word; cbn [scan chars].
  - by rewrite flush_chars, filter_nil, app_nil_r.
  - destruct (isspace c) eqn:Hs.
    + rewrite fmap_app, join_app, flush_chars, IH.
      by rewrite filter_cons_False by (by rewrite Hs).
    + rewrite filter_cons_True by done.
      destruct (is_paren c) eqn:Hp.
      * rewrite fmap_app, join_app, flush_chars, fmap_cons.
        change (mjoin (?x :: ?l)) with (x ++ mjoin l). by rewrite IH.
      * rewrite IH, chars_app. cbn [chars]. by rewrite <-app_assoc.
Qed.

(** X16: the tokens of a text, put end to end, are the text without its
    whitespace: [tokenize] drops whitespace only, keeps every other
    character and keeps their order. *)
Theorem tokenize_chars s :
  mjoin (chars <$> tokenize s) = filter (λ c, isspace c = false) (chars s).
Proof. rewrite tokenize_scan. apply scan_chars. Qed.

Lemma scan_app_space word s1 c s2 :
  isspace c = true →
  scan word (s1 +:+ String c s2) = scan word s1 ++ scan EmptyString s2.
Proof.
  intros Hc. revert word. induction s1 as [|d s1 IH]; intros word; simpl.
  - by rewrite Hc.
  - destruct (isspace d); [by rewrite IH, app_assoc|].
    destruct (is_paren d); [|apply IH].
    by rewrite IH, <-app_assoc.
Qed.

(** X17: the tokens of two texts joined by a whitespace character are the
    tokens of the first followed by the tokens of the second; so the tokens
    of the buffer [file_mode] builds with [" " + line] are the tokens of
    its lines in order. *)
Theorem tokenize_app_space s1 c s2 :
  isspace c = true →
  tokenize (s1 +:+ String c s2) = tokenize s1 ++ tokenize s2.
Proof. intros Hc. rewrite !tokenize_scan. by apply scan_app_space. Qed.

Lemma tokenize_app_space_witness :
  tokenize ("(define x" +:+ String " "%char "1)")
  = tokenize "(define x" ++ tokenize "1)".
Proof. apply tokenize_app_space. reflexivity. Defined.

Lemma scan_plain word t s :
  plain t → scan word (t +:+ s) = scan (word +:+ t) s.
Proof.
  revert word. induction t as [|c t IH]; intros word Ht; simpl.
  - by rewrite append_empty_r.
  - apply Forall_cons in Ht as [[-> ->] Ht]. rewrite IH by done.
    by rewrite append_snoc.
Qed.

Lemma scan_spaced word tokens :
  Forall token tokens → scan word (spaced tokens) = flush word ++ tokens.
Proof.
  intros Hts. revert word.
  induction Hts as [|t tokens Ht _ IH]; intros word; simpl;
    [by rewrite app_nil_r|].
  change (isspace " "%char) with true. simpl. f_equal.
  destruct Ht as [-> | [-> | [Hne Ht]]].
  - simpl. by rewrite IH.
  - simpl. by rewrite IH.
  - rewrite scan_plain, IH by done. simpl. by destruct t.
Qed.

(** X18: tokens written out with a space in front of each are read back by
    [tokenize] as they were. *)
Theorem tokenize_spaced tokens :
  Forall token tokens → tokenize (spaced tokens) = tokens.
Proof. intros Hts. rewrite tokenize_scan. by rewrite scan_spaced. Qed.

Lemma tokenize_spaced_witness :
  tokenize (spaced ["("; "+"; "x"; "12"; ")"]) = ["("; "+"; "x"; "12"; ")"].
Proof.
  apply tokenize_spaced.
  assert (∀ t, t ≠ EmptyString → plain t → token t) as Hlex
    by (intros t ? ?; right; right; by split).
  repeat apply Forall_cons_2; [by left|..|by right; left|apply Forall_nil_2];
    (apply Hlex; [discriminate|by repeat constructor]).
Defined.

(** ** The drivers on text *)

Lemma scan_cons word c s :
  scan word (String c s)
  = if isspace c then flush word ++ scan EmptyString s
    else if is_paren c then
      flush word ++ String c EmptyString :: scan EmptyString s
    else scan (word +:+ String c EmptyString) s.
Proof. reflexivity. Qed.

(** Whitespace alone ends the word under way and gives no token. *)
Lemma scan_blank word s :
  forallb isspace (chars s) = true → scan word s = flush word.
Proof.
  revert word. induction s as [|c s IH]; intros word; [done|].
  cbn [chars forallb]. intros [Hc Hs]%andb_true_iff.
  by rewrite scan_cons, Hc, IH, app_nil_r.
Qed.

Lemma scan_nonempty word s : word ≠ EmptyString → scan word s ≠ [].
Proof.
  revert word. induction s as [|c s IH]; intros word Hw.
  - by destruct word.
  - rewrite scan_cons. destruct (isspace c); [by destruct word|].
    destruct (is_paren c); [by destruct word|].
    apply IH. by destruct word.
Qed.

Lemma scan_empty s : scan EmptyString s = [] → lstrip s = EmptyString.
Proof.
  induction s as [|c s IH]; [done|].
  rewrite scan_cons. cbn [lstrip]. destruct (isspace c); [done|].
  destruct (is_paren c); [done|].
  intros Hs. by apply scan_nonempty in Hs.
Qed.

Lemma scan_lstrip s : scan EmptyString (lstrip s) = scan EmptyString s.
Proof.
  induction s as [|c s IH]; [done|].
  cbn [lstrip]. destruct (isspace c) eqn:Hc; [|done].
  by rewrite scan_cons, Hc.
Qed.

Lemma rstrip_empty s :
  rstrip s = EmptyString → forallb isspace (chars s) = true.
Proof.
  induction s as [|c s IH]; [done|].
  cbn [rstrip chars forallb]. destruct (rstrip s); [|done].
  destruct (isspace c); [|done]. intros _. by apply IH.
Qed.

Lemma scan_rstrip word s : scan word (rstrip s) = scan word s.
Proof.
  revert word. induction s as [|c s IH]; intros word; [done|].
  cbn [rstrip]. destruct (rstrip s) as [|d r] eqn:Hr.
  - pose proof (scan_blank EmptyString s (rstrip_empty s Hr)) as He.
    rewrite (scan_cons word c s).
    destruct (isspace c) eqn:Hc.
    + by rewrite He, app_nil_r.
    + rewrite scan_cons, Hc. destruct (is_paren c); [by rewrite He|].
      by rewrite (scan_blank _ s (rstrip_empty s Hr)).
  - by rewrite (scan_cons word c (String d r)), (scan_cons word c s), !IH.
Qed.

Lemma tokenize_strip s : tokenize (strip s) = tokenize s.
Proof. unfold strip. by rewrite !tokenize_scan, scan_rstrip, scan_lstrip. Qed.

Lemma tokenize_blank s : tokenize s = [] → strip s = EmptyString.
Proof.
  rewrite tokenize_scan. intros Hs%scan_empty. unfold strip. by rewrite Hs.
Qed.

Lemma tokenize_isspace s : tokenize s ≠ [] → str_isspace s = false.
Proof.
  intros Hs. destruct (str_isspace s) eqn:Hb; [|done].
  destruct Hs. rewrite tokenize_scan. apply scan_blank. by destruct s.
Qed.

Lemma occurrences_app t l1 l2 :
  occurrences t (l1 ++ l2) = (occurrences t l1 + occurrences t l2)%nat.
Proof. unfold occurrences. by rewrite filter_app, length_app. Qed.

Lemma occurrences_nil t : occurrences t [] = 0%nat.
Proof. reflexivity. Qed.

Lemma occurrences_cons t u l :
  occurrences t (u :: l)
  = ((if decide (u = t) then 1 else 0) + occurrences t l)%nat.
Proof.
  unfold occurrences. rewrite filter_cons. by destruct (decide (u = t)).
Qed.

Lemma occurrences_flush p word :
  is_paren p = true → plain word →
  occurrences (String p EmptyString) (flush word) = 0%nat.
Proof.
  intros Hp Hw. destruct word as [|c word]; [done|].
  cbn [flush]. rewrite occurrences_cons.
  destruct (decide _) as [[= -> ->]|]; [|done].
  apply Forall_cons in Hw as [[_ Hc] _]. congruence.
Qed.

(** [count] on the text counts the parenthesis tokens. *)
Lemma scan_count p word s :
  is_paren p = true → plain word →
  occurrences (String p EmptyString) (scan word s) = count s p.
Proof.
  intros Hp. revert word. induction s as [|c s IH]; intros word Hw.
  - by apply occurrences_flush.
  - rewrite scan_cons. cbn [count].
    destruct (isspace c) eqn:Hs.
    + rewrite occurrences_app, occurrences_flush, IH by (done || constructor).
      destruct (Ascii.eqb_spec c p) as [->|]; [|done].
      apply paren_not_space in Hp. congruence.
    + destruct (is_paren c) eqn:Hc.
      * rewrite occurrences_app, occurrences_flush, occurrences_cons, IH
          by (done || constructor).
        destruct (Ascii.eqb_spec c p) as [->|Hne].
        -- by rewrite decide_True.
        -- rewrite decide_False; [done|]. by intros [= ->].
      * rewrite IH.
        -- destruct (Ascii.eqb_spec c p) as [->|]; [congruence|done].
        -- unfold plain. rewrite chars_app. apply Forall_app.
           split; [done|]. by repeat constructor.
Qed.

Lemma tokenize_count s :
  occurrences "(" (tokenize s) = count s "("%char
  ∧ occurrences ")" (tokenize s) = count s ")"%char.
Proof.
  rewrite tokenize_scan. split; by apply scan_count; [|constructor].
Qed.

Lemma prefix_app_cases {A} (u l1 l2 : list A) :
  u `prefix_of` l1 ++ l2 →
  u `prefix_of` l1 ∨ ∃ k, u = l1 ++ k ∧ k `prefix_of` l2.
Proof.
  intros [k Hk]. apply app_eq_inv in Hk as [(k' & H1 & H2)|(k' & H1 & H2)].
  - left. by exists k'.
  - right. exists k'. split; [done|]. by exists k.
Qed.

Lemma open_inside_never_negative tokens :
  balanced tokens → open_inside tokens → never_negative tokens.
Proof.
  intros Hb Ho u Hu.
  destruct (decide (u = [])) as [->|Hne]; [done|].
  destruct (decide (u = tokens)) as [->|Hne']; [by rewrite Hb|].
  apply Nat.lt_le_incl. by apply Ho.
Qed.

(** The spelling of an expression closes what it opens, and a group is
    open until its last token. *)
Lemma spells_balance py_float ts e :
  spells py_float ts e → balanced ts ∧ open_inside ts.
Proof.
  revert ts e.
  apply (spells_mut py_float (λ ts _, balanced ts ∧ open_inside ts)
           (λ body _, balanced body ∧ never_negative body)).
  - intros t Ho Hc. split.
    + unfold balanced. by rewrite !occurrences_cons, !decide_False.
    + intros u Hu Hne Hne'. destruct u as [|x u]; [done|].
      pose proof (prefix_cons_inv_1 _ _ _ _ Hu) as ->.
      by apply prefix_cons_inv_2, prefix_nil_inv in Hu as ->.
  - intros body es _ [Hb Hn]. split.
    + unfold balanced in *.
      rewrite !occurrences_cons, !occurrences_app, !occurrences_cons.
      rewrite !occurrences_nil. repeat case_decide; try done. lia.
    + intros u Hu Hne Hne'. destruct u as [|x u]; [done|].
      pose proof (prefix_cons_inv_1 _ _ _ _ Hu) as ->.
      apply prefix_cons_inv_2 in Hu.
      assert (u `prefix_of` body) as Hub.
      { apply prefix_app_cases in Hu as [Hu|(k & -> & Hk)]; [done|].
        destruct k as [|y k]; [by rewrite app_nil_r|].
        pose proof (prefix_cons_inv_1 _ _ _ _ Hk) as ->.
        by apply prefix_cons_inv_2, prefix_nil_inv in Hk as ->. }
      specialize (Hn u Hub). rewrite !occurrences_cons.
      repeat case_decide; try done. lia.
  - split; [done|]. by intros u ->%prefix_nil_inv.
  - intros ts e body es _ [Hb Ho] _ [Hb' Hn']. split.
    + unfold balanced in *. rewrite !occurrences_app. lia.
    + intros u [Hu|(k & -> & Hk)]%prefix_app_cases.
      * by apply (open_inside_never_negative ts).
      * specialize (Hn' k Hk). unfold balanced in Hb.
        rewrite !occurrences_app. lia.
Qed.


(** The test of [file_mode] in terms of the tokens of its buffer. *)
Lemma ready_tokens s :
  ready s = true ↔
    ((0 < occurrences "(" (tokenize s))%nat ∧ balanced (tokenize s))
    ∨ (occurrences "(" (tokenize s) = 0%nat
       ∧ occurrences ")" (tokenize s) = 0%nat ∧ str_isspace s = false).
Proof.
  unfold balanced. destruct (tokenize_count s) as [-> ->].
  unfold ready. cbv zeta.
  rewrite orb_true_iff, !andb_true_iff, !bool_decide_eq_true, negb_true_iff.
  tauto.
Qed.

Lemma ready_iff py_float source_buffer tokens e :
  spells py_float tokens e →
  tokenize source_buffer `prefix_of` tokens → tokenize source_buffer ≠ [] →
  ready source_buffer = true ↔ tokenize source_buffer = tokens.
Proof.
  intros Hs Hp Hne. destruct (spells_balance _ _ _ Hs) as [Hb Ho].
  rewrite ready_tokens. split.
  - intros Hr. destruct (decide (tokenize source_buffer = tokens)) as [|Hn];
      [done|].
    specialize (Ho _ Hp Hne Hn). unfold balanced in Hr.
    destruct Hr as [[? ?]|(? & ? & ?)]; lia.
  - intros Heq. pose proof (tokenize_isspace _ Hne) as Hsp.
    rewrite Heq. unfold balanced in *.
    destruct (decide (0 < occurrences "(" tokens)%nat); [by left|].
    right. split_and!; [lia|lia|done].
Qed.

Lemma parse_spelled py_float used rest e :
  spells py_float used e →
  parse py_float (used ++ rest) = Some (inr (e, rest)).
Proof. intros Hs. apply parse_spec. by exists used. Qed.

Lemma spelled_parse py_float tokens e :
  parse py_float tokens = Some (inr (e, [])) → spells py_float tokens e.
Proof.
  intros (used & -> & Hs)%parse_spec. by rewrite app_nil_r.
Qed.

Lemma interpret_spelled py_float fuel text used rest e σ :
  tokenize text = used ++ rest → spells py_float used e →
  interpret py_float fuel text σ = evaluate fuel e global_env σ.
Proof.
  intros Ht Hs. unfold interpret. by rewrite Ht, (parse_spelled _ _ _ e).
Qed.

(** X19: of the text a driver submits only the first expression is
    evaluated: whatever tokens follow its spelling are dropped, without a
    diagnostic. *)
Theorem interpret_first py_float fuel text used rest e σ :
  tokenize text = used ++ rest → spells py_float used e →
  interpret py_float fuel text σ = evaluate fuel e global_env σ.
Proof. apply interpret_spelled. Qed.

Lemma interpret_first_witness :
  interpret float_of_digits 3 "(define x 1) (undefined" create_global_env
  = evaluate 3 (EList [ESym "define"; ESym "x"; num 1]) global_env
      create_global_env.
Proof.
  apply (interpret_first _ _ _ ["("; "define"; "x"; "1"; ")"]
           ["("; "undefined"]); [reflexivity|].
  apply spelled_parse. reflexivity.
Defined.

(** X20: while the buffer of [file_mode] holds the first tokens of an
    expression, the test on its parenthesis counts succeeds exactly when
    the buffer holds all of them. *)
Theorem ready_when_complete py_float source_buffer tokens e :
  spells py_float tokens e →
  tokenize source_buffer `prefix_of` tokens → tokenize source_buffer ≠ [] →
  ready source_buffer = true ↔ tokenize source_buffer = tokens.
Proof. apply ready_iff. Qed.

Lemma ready_when_complete_witness :
  (ready " (define x" = true
   ↔ tokenize " (define x" = ["("; "define"; "x"; "1"; ")"])
  ∧ (ready " (define x 1)" = true
     ↔ tokenize " (define x 1)" = ["("; "define"; "x"; "1"; ")"]).
Proof.
  split;
    (apply (ready_when_complete float_of_digits _ _
              (EList [ESym "define"; ESym "x"; num 1]));
     [apply spelled_parse; reflexivity| |discriminate]).
  - by exists ["1"; ")"].
  - by exists [].
Defined.

Lemma report_ext o next next' :
  (∀ σ, next σ = next' σ) → report o next = report o next'.
Proof.
  intros H. destruct o as [v σ|x σ| |]; cbn [report]; [|by rewrite H|done..].
  rewrite H. by destruct v.
Qed.

Lemma kept_cons l ls :
  kept (l :: ls) = if passed_over l then kept ls else l :: kept ls.
Proof.
  unfold kept. rewrite filter_cons.
  destruct (passed_over l); [by rewrite decide_False|by rewrite decide_True].
Qed.

Lemma kept_tokens l : passed_over l = false → tokenize l ≠ [].
Proof.
  intros Hl Ht%tokenize_blank. unfold passed_over in Hl.
  by rewrite Ht in Hl.
Qed.

Lemma kept_nonempty ls :
  kept ls ≠ [] → mjoin (tokenize <$> kept ls) ≠ [].
Proof.
  induction ls as [|l ls IH]; [done|].
  rewrite kept_cons. destruct (passed_over l) eqn:Hl; [done|].
  intros _. rewrite fmap_cons.
  change (mjoin (?x :: ?l)) with (x ++ mjoin l).
  intros [Ht _]%app_eq_nil. by apply kept_tokens in Ht.
Qed.

Lemma file_mode_passed_over py_float fuel ls rest b σ :
  kept ls = [] →
  file_mode py_float fuel (ls ++ rest) b σ = file_mode py_float fuel rest b σ.
Proof.
  induction ls as [|l ls IH]; [done|].
  rewrite kept_cons. cbn [app file_mode].
  destruct (passed_over l); [done|discriminate].
Qed.

Lemma tokenize_buffer b l :
  tokenize (b +:+ String " "%char (strip l)) = tokenize b ++ tokenize l.
Proof.
  by rewrite !tokenize_scan, scan_app_space, <-!tokenize_scan, tokenize_strip.
Qed.

(** The lines of one expression: [file_mode] collects them and submits the
    buffer at the last. *)
Lemma file_mode_collect py_float fuel ls :
  ∀ b rest σ e,
    kept ls ≠ [] →
    spells py_float (tokenize b ++ mjoin (tokenize <$> kept ls)) e →
    file_mode py_float fuel (ls ++ rest) b σ
    = report (evaluate fuel e global_env σ)
        (file_mode py_float fuel rest EmptyString).
Proof.
  induction ls as [|l ls IH]; intros b rest σ e Hk Hs; [done|].
  cbn [app file_mode]. rewrite kept_cons in Hk, Hs.
  destruct (passed_over l) eqn:Hl; [by apply IH|].
  rewrite fmap_cons in Hs.
  change (mjoin (?x :: ?l)) with (x ++ mjoin l) in Hs.
  rewrite app_assoc, <-tokenize_buffer in Hs.
  assert (tokenize (b +:+ String " "%char (strip l)) ≠ []) as Hne.
  { rewrite tokenize_buffer. intros [_ Ht]%app_eq_nil.
    by apply kept_tokens in Ht. }
  destruct (decide (kept ls = [])) as [Hnil|Hcons].
  - rewrite Hnil in Hs. cbn [fmap list_fmap mjoin list_join] in Hs.
    rewrite app_nil_r in Hs.
    rewrite (proj2 (ready_iff _ _ _ _ Hs (reflexivity _) Hne)) by done.
    rewrite (interpret_spelled _ _ _ _ [] e) by (by rewrite ?app_nil_r).
    apply report_ext. intros σ'. by apply file_mode_passed_over.
  - destruct (ready _) eqn:Hr; [|by apply IH].
    apply (ready_iff _ _ _ _ Hs) in Hr; [|by apply prefix_app_r|done].
    apply kept_nonempty in Hcons. destruct Hcons.
    by apply (app_inv_head (tokenize (b +:+ String " "%char (strip l)))),
      symmetry; rewrite app_nil_r.
Qed.



(** X22: on lines that each spell one expression, are no comment and are
    not [exit], [repl_mode] answers as [file_mode] does: the same results
    and error reports in the same order, and the same end. *)
Theorem repl_mode_as_file_mode py_float fuel lines σ :
  Forall (λ l, passed_over l = false ∧ strip l ≠ "exit"
               ∧ ∃ e, spells py_float (tokenize l) e) lines →
  repl_mode py_float fuel lines σ
  = file_mode py_float fuel lines EmptyString σ.
Proof.
  intros H. revert σ.
  induction H as [|l ls (Hl & Hx & e & Hs) _ IH]; intros σ; [done|].
  change (l :: ls) with ([l] ++ ls) at 2.
  rewrite (file_mode_collect _ _ [l] EmptyString ls σ e).
  - cbn [repl_mode]. unfold passed_over in Hl.
    apply orb_false_iff in Hl as [Hl _]. rewrite Hl.
    rewrite bool_decide_eq_false_2 by done.
    rewrite (interpret_spelled _ _ _ _ [] e) by (by rewrite ?app_nil_r).
    by apply report_ext.
  - by rewrite kept_cons, Hl.
  - rewrite kept_cons, Hl. cbn. by rewrite app_nil_r.
Qed.

Lemma repl_mode_as_file_mode_witness :
  repl_mode float_of_digits 5 ["(define x 2)"; "(+ x x)"; "y"]
    create_global_env
  = file_mode float_of_digits 5 ["(define x 2)"; "(+ x x)"; "y"] EmptyString
      create_global_env.
Proof.
  apply repl_mode_as_file_mode.
  repeat apply Forall_cons_2; [..|apply Forall_nil_2];
    (split_and!; [reflexivity|discriminate|]);
    eexists; apply spelled_parse; reflexivity.
Defined.



(** The limit of [sprint]: [x] is 2 squared fourteen times, an int of 4933
    digits.  [(< x 0)] is printed, [x] is not, and the [(< x 0)] after it
    is not evaluated. *)
Example print_limit_ends_file_mode :
  file_mode float_of_digits 5
    (["(define x (+ #t #t))"] ++ replicate 14 "(define x ( * x x))"
     ++ ["(< x 0)"; "x"; "(< x 0)"])
    EmptyString create_global_env
  = ([Printed (VBool false)], UncaughtValueError).
Proof. vm_compute. reflexivity. Qed.

(** ** The test runner *)

Lemma rstrip_nonspace c s :
  isspace c = false → rstrip (String c s) = String c (rstrip s).
Proof. intros Hc. cbn [rstrip]. rewrite Hc. by destruct (rstrip s). Qed.

Lemma rstrip_before_nonspace c d s :
  isspace d = false →
  rstrip (String c (String d s)) = String c (rstrip (String d s)).
Proof.
  intros Hd. rewrite (rstrip_nonspace d s Hd).
  change (rstrip (String c (String d s)))
    with (match rstrip (String d s) with
          | EmptyString =>
              if isspace c then EmptyString else String c EmptyString
          | r => String c r
          end).
  by rewrite (rstrip_nonspace d s Hd).
Qed.

Lemma rstrip_idem s : rstrip (rstrip s) = rstrip s.
Proof.
  induction s as [|c s IH]; [done|].
  cbn [rstrip]. destruct (rstrip s) as [|d r] eqn:Hr.
  - destruct (isspace c) eqn:Hc; [done|]. cbn [rstrip]. by rewrite Hc.
  - change (rstrip (String c (String d r)))
      with (match rstrip (String d r) with
            | EmptyString =>
                if isspace c then EmptyString else String c EmptyString
            | r => String c r
            end).
    by rewrite IH.
Qed.

Lemma lstrip_idem s : lstrip (lstrip s) = lstrip s.
Proof.
  induction s as [|c s IH]; [done|].
  cbn [lstrip]. destruct (isspace c) eqn:Hc; [done|].
  cbn [lstrip]. by rewrite Hc.
Qed.

Lemma strip_comm s : rstrip (lstrip s) = lstrip (rstrip s).
Proof.
  induction s as [|c s IH]; [done|].
  cbn [lstrip]. destruct (isspace c) eqn:Hc.
  - cbn [rstrip]. rewrite IH, Hc.
    destruct (rstrip s) as [|d r]; [done|]. cbn [lstrip]. by rewrite Hc.
  - rewrite rstrip_nonspace by done. cbn [lstrip]. by rewrite Hc.
Qed.

Lemma strip_idem s : strip (strip s) = strip s.
Proof.
  unfold strip. by rewrite <-(strip_comm (lstrip s)), rstrip_idem, lstrip_idem.
Qed.

Lemma strip_rstrip s : strip (rstrip s) = strip s.
Proof. unfold strip. by rewrite <-strip_comm, rstrip_idem. Qed.

Lemma lstrip_chars c s : c ∈ chars (lstrip s) → c ∈ chars s.
Proof.
  induction s as [|d s IH]; [done|].
  cbn [lstrip chars]. destruct (isspace d); [|done].
  intros Hc. right. by apply IH.
Qed.

Lemma rstrip_chars c s : c ∈ chars (rstrip s) → c ∈ chars s.
Proof.
  induction s as [|d s IH]; [done|].
  cbn [rstrip chars]. destruct (rstrip s) as [|e r].
  - destruct (isspace d); [by intros ?%elem_of_nil|].
    intros [->|?%elem_of_nil]%elem_of_cons; [left|done].
  - intros [->|Hc]%elem_of_cons; [left|right; by apply IH].
Qed.

Lemma strip_chars c s : c ∈ chars (strip s) → c ∈ chars s.
Proof. by intros ?%rstrip_chars%lstrip_chars. Qed.

Lemma startswith_append s p : startswith s p = true → ∃ r, s = p +:+ r.
Proof.
  unfold startswith. revert s. induction p as [|a p IH]; intros s.
  - by exists s.
  - destruct s as [|b s]; [done|]. cbn [String.prefix].
    destruct (Ascii.ascii_dec a b) as [->|]; [|done].
    intros [r ->]%IH. by exists r.
Qed.

Lemma split_sep_pieces sep word s :
  sep ∉ chars word →
  Forall (λ piece, sep ∉ chars piece) (TestRunner.split_sep sep word s).
Proof.
  revert word. induction s as [|c s IH]; intros word Hw.
  - by repeat constructor.
  - cbn [TestRunner.split_sep]. destruct (Ascii.eqb_spec c sep) as [->|Hc].
    + constructor; [done|]. apply IH. by intros ?%elem_of_nil.
    + apply IH. rewrite chars_app.
      intros [?|[->|?%elem_of_nil]%elem_of_cons]%elem_of_app; done.
Qed.

Lemma split_sep_first sep word s :
  ∃ piece pieces, TestRunner.split_sep sep word s = piece :: pieces.
Proof.
  revert word. induction s as [|c s IH]; intros word; [by eexists _, _|].
  cbn [TestRunner.split_sep]. destruct (Ascii.eqb c sep); [by eexists _, _|].
  apply IH.
Qed.

Lemma split_sep_none sep word s :
  sep ∉ chars s → TestRunner.split_sep sep word s = [word +:+ s].
Proof.
  revert word. induction s as [|c s IH]; intros word Hs.
  - by rewrite append_empty_r.
  - cbn [TestRunner.split_sep]. cbn [chars] in Hs.
    apply not_elem_of_cons in Hs as [Hc Hs].
    destruct (Ascii.eqb_spec c sep) as [->|_]; [done|].
    by rewrite IH, append_snoc.
Qed.

(** The second piece of an expected line is there. *)
Lemma split_expected r :
  TestRunner.split_sep ":"%char EmptyString ("; expected:" +:+ r) !! 1%nat
  = head (TestRunner.split_sep ":"%char EmptyString r).
Proof.
  change (TestRunner.split_sep ":"%char EmptyString ("; expected:" +:+ r))
    with ("; expected" :: TestRunner.split_sep ":"%char EmptyString r).
  by destruct (TestRunner.split_sep ":"%char EmptyString r).
Qed.

Lemma load_tests_no_IndexError lines :
  ∀ last_line tests,
    TestRunner.load_tests lines last_line tests ≠ inl TestRunner.IndexError.
Proof.
  induction lines as [|line lines IH]; intros last_line tests; [done|].
  cbn [TestRunner.load_tests]. cbv zeta.
  destruct (startswith (strip line) "; expected:") eqn:He.
  - apply startswith_append in He as [r ->]. rewrite split_expected.
    destruct (split_sep_first ":"%char EmptyString r) as (x & l & ->).
    cbn [head]. destruct last_line; [apply IH|done].
  - case_bool_decide; apply IH.
Qed.

(** X24: [load_tests_from_file] fails with AssertionError only: the
    subscript [line.split(":")[1]] never raises IndexError, because the
    line starts with [; expected:]. *)
Theorem load_never_IndexError lines :
  TestRunner.load_tests_from_file lines ≠ inl TestRunner.IndexError.
Proof. apply load_tests_no_IndexError. Qed.

Lemma load_tests_loaded lines :
  ∀ last_line tests tests',
    (∀ l, last_line = Some l → l ≠ EmptyString ∧ strip l = l) →
    Forall loaded_test tests →
    TestRunner.load_tests lines last_line tests = inr tests' →
    Forall loaded_test tests'.
Proof.
  induction lines as [|line lines IH]; intros last_line tests tests' Hl Ht.
  { by intros [= <-]. }
  cbn [TestRunner.load_tests]. cbv zeta.
  destruct (startswith (strip line) "; expected:") eqn:He.
  - apply startswith_append in He as [r ->]. rewrite split_expected.
    pose proof (split_sep_pieces ":"%char EmptyString r) as Hp.
    destruct (TestRunner.split_sep ":"%char EmptyString r) as [|x l];
      [done|].
    cbn [head]. destruct last_line as [last|]; [|done].
    apply IH; [done|]. apply Forall_app. split; [done|].
    constructor; [|constructor].
    destruct (Hl last eq_refl) as [Hne Hs].
    split_and!; cbn; [done|done|apply strip_idem|].
    intros Hc%strip_chars. apply Forall_cons in Hp as [Hx _]; [done|].
    by intros ?%elem_of_nil.
  - case_bool_decide as Hne.
    + apply IH; [|done]. intros l [= <-]. split; [done|apply strip_idem].
    + by apply IH.
Qed.

(** X25: every test [load_tests_from_file] returns has a non-empty
    expression, both texts stripped of surrounding whitespace, and an
    expected result without a colon: of [; expected: a:b] only [a] is
    kept. *)
Theorem loaded_tests_shape lines tests :
  TestRunner.load_tests_from_file lines = inr tests →
  Forall loaded_test tests.
Proof. by apply load_tests_loaded. Qed.

Lemma loaded_tests_shape_witness :
  Forall loaded_test
    [TestRunner.Build_TestCase "(+ 1 2)" "3";
     TestRunner.Build_TestCase "x" "12"].
Proof.
  apply (loaded_tests_shape
           ["  (+ 1 2)"; "; expected: 3 "; ""; "x"; "; expected: 12:30"]).
  reflexivity.
Defined.

Lemma startswith_prefix p r : startswith (p +:+ r) p = true.
Proof.
  unfold startswith. induction p as [|a p IH]; [by destruct r|].
  simpl. by destruct (Ascii.ascii_dec a a).
Qed.

Lemma strip_expected r :
  strip ("; expected:" +:+ r) = "; expected:" +:+ rstrip r.
Proof.
  unfold strip.
  change (lstrip ("; expected:" +:+ r)) with ("; expected:" +:+ r).
  cbv [String.append].
  rewrite rstrip_nonspace by reflexivity.
  rewrite rstrip_before_nonspace by reflexivity.
  by rewrite !rstrip_nonspace by reflexivity.
Qed.

Lemma load_tests_test_lines pairs :
  Forall (λ p, strip p.1 ≠ EmptyString
               ∧ startswith (strip p.1) "; expected:" = false
               ∧ ":"%char ∉ chars p.2) pairs →
  ∀ last_line tests,
    TestRunner.load_tests (test_lines pairs) last_line tests
    = inr (tests
           ++ ((λ p, TestRunner.Build_TestCase (strip p.1) (strip p.2))
                 <$> pairs)).
Proof.
  induction 1 as [|[x r] pairs (Hne & Hx & Hr) _ IH]; intros last_line tests.
  { by rewrite app_nil_r. }
  change (test_lines ((x, r) :: pairs))
    with (x :: ("; expected:" +:+ r) :: test_lines pairs).
  cbn [fst snd] in *.
  cbn [TestRunner.load_tests]. cbv zeta.
  rewrite Hx, bool_decide_eq_true_2 by done.
  rewrite strip_expected, startswith_prefix, split_expected.
  rewrite split_sep_none by (by intros ?%rstrip_chars).
  change (EmptyString +:+ rstrip r) with (rstrip r). cbn [head].
  rewrite strip_rstrip, IH, <-app_assoc. done.
Qed.

(** X26: round trip: from the test file written for a list of pairs, each
    expression on a line of its own followed by [; expected:] and its
    result, [load_tests_from_file] returns the pairs in order, stripped,
    when no expression is blank or itself starts with [; expected:] and no
    result has a colon. *)
Theorem load_test_lines pairs :
  Forall (λ p, strip p.1 ≠ EmptyString
               ∧ startswith (strip p.1) "; expected:" = false
               ∧ ":"%char ∉ chars p.2) pairs →
  TestRunner.load_tests_from_file (test_lines pairs)
  = inr ((λ p, TestRunner.Build_TestCase (strip p.1) (strip p.2)) <$> pairs).
Proof. intros H. by apply load_tests_test_lines. Qed.

Lemma load_test_lines_witness :
  TestRunner.load_tests_from_file
    (test_lines [(" (+ 1 2)", " 3"); ("(< 1 2) ", " #t ")])
  = inr [TestRunner.Build_TestCase "(+ 1 2)" "3";
         TestRunner.Build_TestCase "(< 1 2)" "#t"].
Proof.
  apply (load_test_lines [(" (+ 1 2)", " 3"); ("(< 1 2) ", " #t ")]).
  repeat apply Forall_cons_2; [..|apply Forall_nil_2];
    (split_and!; [discriminate|reflexivity|]);
    apply (bool_decide_unpack _); vm_compute; exact I.
Defined.

Lemma judge_app py_float tests lines more :
  ∀ i, TestRunner.judge py_float tests lines i ≠ TestRunner.NoLine →
       TestRunner.judge py_float tests (lines ++ more) i
       = TestRunner.judge py_float tests lines i.
Proof.
  induction tests as [|test tests IH]; intros i; [done|].
  cbn [TestRunner.judge].
  destruct (lines !! i) as [actual|] eqn:Hi; [|done].
  rewrite (lookup_app_l_Some _ _ _ _ Hi).
  destruct (TestRunner.differ _ _ _); [done|]. apply IH.
Qed.

Lemma strip_fixed a : strip a = a → lstrip a = a ∧ rstrip a = a.
Proof.
  intros Ha. split.
  - rewrite <-Ha at 1. unfold strip. by rewrite strip_comm, lstrip_idem,
      <-strip_comm.
  - rewrite <-Ha at 1. unfold strip. by rewrite rstrip_idem.
Qed.

Lemma rstrip_nonempty c s :
  rstrip s ≠ EmptyString → rstrip (String c s) = String c (rstrip s).
Proof. intros Hs. cbn [rstrip]. by destruct (rstrip s). Qed.

Lemma rstrip_head c s e r : rstrip (String c s) = String e r → e = c.
Proof.
  cbn [rstrip]. destruct (rstrip s); [|by intros [= <- _]].
  destruct (isspace c); [done|by intros [= <- _]].
Qed.

Lemma rstrip_tail c a :
  rstrip (String c a) = String c a →
  rstrip a = a ∧ (a = EmptyString → isspace c = false).
Proof.
  cbn [rstrip]. destruct (rstrip a) as [|d r] eqn:Hr.
  - destruct (isspace c); [done|]. by intros [= <-].
  - intros [= <-]. by split.
Qed.

Lemma append_cons c a x : String c a +:+ x = String c (a +:+ x).
Proof. reflexivity. Qed.

Lemma rstrip_app a x : rstrip a = a → rstrip (a +:+ x) = a +:+ rstrip x.
Proof.
  induction a as [|c a IH]; [done|].
  intros [Ha Hc]%rstrip_tail. rewrite !append_cons.
  destruct a as [|d a].
  - by apply rstrip_nonspace, Hc.
  - rewrite rstrip_nonempty; rewrite IH by done; done.
Qed.

Lemma lstrip_length s : (String.length (lstrip s) ≤ String.length s)%nat.
Proof.
  induction s as [|c s IH]; [done|].
  cbn [lstrip]. destruct (isspace c); cbn [String.length]; lia.
Qed.

Lemma lstrip_app a x :
  lstrip a = a → a ≠ EmptyString → lstrip (a +:+ x) = a +:+ x.
Proof.
  destruct a as [|c a]; [done|]. intros Ha _.
  rewrite append_cons. cbn [lstrip] in *.
  destruct (isspace c); [|done].
  pose proof (lstrip_length a) as Hl. rewrite Ha in Hl.
  cbn [String.length] in Hl. lia.
Qed.

Lemma linebreak_space c : TestRunner.is_linebreak c = true → isspace c = true.
Proof.
  unfold TestRunner.is_linebreak, isspace. cbv zeta.
  rewrite !bool_decide_eq_true. lia.
Qed.

Lemma splitlines_from_cons line c s :
  TestRunner.splitlines_from line (String c s)
  = if TestRunner.is_linebreak c then
      line ::
        match s with
        | EmptyString => []
        | String d s' =>
            if Ascii.eqb c "013"%char && Ascii.eqb d "010"%char then
              TestRunner.splitlines_from EmptyString s'
            else TestRunner.splitlines_from EmptyString s
        end
    else TestRunner.splitlines_from (line +:+ String c EmptyString) s.
Proof. reflexivity. Qed.

(** A line feed after a text that does not end in whitespace starts a new
    line: the lines before it are the lines of the text. *)
Lemma splitlines_from_app n :
  ∀ a line r,
    (String.length a ≤ n)%nat → rstrip a = a →
    line ≠ EmptyString ∨ a ≠ EmptyString →
    TestRunner.splitlines_from line (a +:+ String "010"%char r)
    = TestRunner.splitlines_from line a
      ++ TestRunner.splitlines_from EmptyString r.
Proof.
  induction n as [|n IH]; intros a line r Hn Ha Hne.
  { destruct a; [|cbn [String.length] in Hn; lia].
    destruct Hne as [Hne|]; [|done].
    change (EmptyString +:+ String "010"%char r) with (String "010"%char r).
    rewrite splitlines_from_cons.
    change (TestRunner.is_linebreak "010"%char) with true. cbv iota.
    destruct line; [done|]. by destruct r. }
  destruct a as [|c a].
  { apply (IH EmptyString); [cbn; lia|done|done]. }
  cbn [String.length] in Hn. apply rstrip_tail in Ha as [Ha Hc].
  rewrite append_cons, !splitlines_from_cons.
  destruct (TestRunner.is_linebreak c) eqn:Hb.
  - apply linebreak_space in Hb.
    destruct a as [|d a]; [by rewrite Hc in Hb|].
    rewrite append_cons, <-append_cons. cbn [app]. f_equal.
    destruct (Ascii.eqb c "013"%char && Ascii.eqb d "010"%char) eqn:Hcr.
    + apply andb_true_iff in Hcr as [_ ->%Ascii.eqb_eq].
      apply rstrip_tail in Ha as [Ha Hd].
      apply IH; [cbn [String.length] in Hn; lia|done|].
      right. intros ->. by specialize (Hd eq_refl).
    + apply IH; [lia|done|by right].
  - apply IH; [lia|done|]. left. by destruct line.
Qed.

Lemma splitlines_app a r :
  rstrip a = a → a ≠ EmptyString →
  TestRunner.splitlines (a +:+ String "010"%char r)
  = TestRunner.splitlines a ++ TestRunner.splitlines r.
Proof.
  intros Ha Hne. apply (splitlines_from_app (String.length a)); auto.
Qed.

Lemma strip_more a more :
  strip a = a → a ≠ EmptyString →
  strip (a +:+ String "010"%char more) = a
  ∨ ∃ r, strip (a +:+ String "010"%char more) = a +:+ String "010"%char r.
Proof.
  intros [Hl Hr]%strip_fixed Hne. unfold strip.
  rewrite lstrip_app, rstrip_app by done.
  destruct (rstrip (String "010"%char more)) as [|e r] eqn:He.
  - left. apply append_empty_r.
  - right. exists r. by rewrite (rstrip_head _ _ _ _ He).
Qed.

(** X27: output after the part the tests compare is not looked at, as long
    as that part ends without whitespace: when the standard output [a] has
    no whitespace at its ends and the loop over the tests found a line for
    every test it reached, the loop ends the same way on [a], a line feed
    and any further text. *)
Theorem verdict_ignores_more_output py_float tests a more :
  strip a = a →
  TestRunner.verdict_on py_float tests a ≠ TestRunner.NoLine →
  TestRunner.verdict_on py_float tests (a +:+ String "010"%char more)
  = TestRunner.verdict_on py_float tests a.
Proof.
  intros Ha Hv. unfold TestRunner.verdict_on in *.
  destruct (decide (a = EmptyString)) as [->|Hne].
  { by destruct tests. }
  destruct (strip_more a more Ha Hne) as [->|[r ->]]; [by rewrite Ha|].
  rewrite Ha in *. rewrite splitlines_app by (done || by apply strip_fixed).
  by apply judge_app.
Qed.

Lemma verdict_ignores_more_output_witness :
  TestRunner.verdict_on float_of_digits
    [TestRunner.Build_TestCase "(+ 1 2)" "3"]
    ("03" +:+ String "010"%char
       ("#t " +:+ String "010"%char ("4" +:+ String "010"%char EmptyString)))
  = TestRunner.verdict_on float_of_digits
      [TestRunner.Build_TestCase "(+ 1 2)" "3"] "03".
Proof.
  apply verdict_ignores_more_output; [reflexivity|].
  vm_compute. discriminate.
Defined.

Lemma differ_nan py_float expected actual :
  py_float expected = Some S754_nan →
  TestRunner.differ py_float expected actual = true.
Proof.
  intros He. unfold TestRunner.differ. rewrite He.
  destruct (py_float actual) as [y|] eqn:Ha; [by destruct y|].
  apply bool_decide_eq_true_2. intros ->. congruence.
Qed.

Lemma judge_nan py_float test tests lines :
  py_float (TestRunner.expected test) = Some S754_nan → test ∈ tests →
  ∀ i, TestRunner.judge py_float tests lines i ≠ TestRunner.Passed.
Proof.
  intros Hn Hin. induction tests as [|t tests IH]; intros i.
  { by apply elem_of_nil in Hin. }
  cbn [TestRunner.judge]. destruct (lines !! i) as [actual|]; [|done].
  apply elem_of_cons in Hin as [<-|Hin].
  - by rewrite differ_nan.
  - destruct (TestRunner.differ _ _ _); [done|]. by apply IH.
Qed.

(** X28: a file with a test whose expected result reads as the float NaN
    never passes, whatever the interpreter prints: both texts are made
    floats before they are compared, and NaN differs from every float. *)
Theorem nan_never_passes py_float test tests lines :
  py_float (TestRunner.expected test) = Some S754_nan → test ∈ tests →
  TestRunner.judge py_float tests lines 0 ≠ TestRunner.Passed.
Proof. intros Hn Hin. by apply (judge_nan _ test). Qed.

Lemma nan_never_passes_witness :
  TestRunner.judge
    (λ s, if bool_decide (s = "nan") then Some S754_nan
          else float_of_digits s)
    [TestRunner.Build_TestCase "(- inf inf)" "nan"] ["nan"] 0
  ≠ TestRunner.Passed.
Proof.
  apply (nan_never_passes _ (TestRunner.Build_TestCase "(- inf inf)" "nan"));
    [reflexivity|by left].
Defined.

(** ** The end of the file *)

Lemma file_mode_pending py_float fuel tokens e ls :
  spells py_float tokens e →
  ∀ b more σ,
    tokenize b ++ mjoin (tokenize <$> kept ls) ++ more = tokens →
    more ≠ [] →
    file_mode py_float fuel ls b σ = ([], Finished).
Proof.
  intros Hs. induction ls as [|l ls IH]; intros b more σ Ht Hm; [done|].
  cbn [file_mode]. rewrite kept_cons in Ht.
  destruct (passed_over l) eqn:Hl; [by apply (IH _ more)|].
  rewrite fmap_cons in Ht.
  change (mjoin (?x :: ?l)) with (x ++ mjoin l) in Ht.
  rewrite <-app_assoc, app_assoc, <-tokenize_buffer in Ht.
  destruct (ready _) eqn:Hr; [|by apply (IH _ more)].
  apply (ready_iff _ _ _ _ Hs) in Hr.
  - rewrite <-Hr in Ht. apply (f_equal length) in Ht.
    rewrite !length_app in Ht. destruct more; [done|]. simpl in Ht. lia.
  - rewrite <-Ht. by apply prefix_app_r.
  - rewrite tokenize_buffer. intros [_ Hn]%app_eq_nil.
    by apply kept_tokens in Hn.
Qed.

(** X29: lines that stop inside an expression print nothing: when the
    file ends before the expression is complete, [file_mode] returns
    without evaluating it and without a diagnostic. *)
Theorem file_mode_unfinished py_float fuel ls more e σ :
  spells py_float (mjoin (tokenize <$> kept ls) ++ more) e → more ≠ [] →
  file_mode py_float fuel ls EmptyString σ = ([], Finished).
Proof. intros Hs Hm. by apply (file_mode_pending _ _ _ e ls Hs _ more). Qed.

Lemma file_mode_unfinished_witness :
  file_mode float_of_digits 3 ["(define x"; "  (+ 1"; "; and so on"]
    EmptyString create_global_env
  = ([], Finished).
Proof.
  apply (file_mode_unfinished _ _ _ ["2"; ")"; ")"]
           (EList [ESym "define"; ESym "x";
                   EList [ESym "+"; num 1; num 2]]));
    [|discriminate].
  apply spelled_parse. reflexivity.
Defined.
